(** * Reranker service and CSV enrichment job

    A shallow embedding of [docker/reranker/app.py] (the scoring service)
    and [docker/reranker/enrich_csv.py] (the batch CSV enrichment job),
    with the properties of their specification stated and proved over it.

    Conventions of the embedding:
    - a Python [str] is a [string]; each character is read as a code point
      below 256, and whitespace is what [str.strip()] removes in that range;
    - a Python [float] is a [pyfloat]: sign, mantissa and binary exponent of
      the double, or an infinity, or NaN;
    - a CSV row (a [dict] made by [csv.DictReader]) is a
      [gmap string (option string)]; [None] is the value [DictReader] gives
      a column the line is too short to fill;
    - an exception is the result [None];
    - the tokenizer, the model and torch's [sigmoid] and [softmax] are
      parameters: they are external to the repository. *)

From Stdlib Require Import ZArith NArith List String Ascii Bool Lia.
From Stdlib Require Import Decimal DecimalString.
From Stdlib Require Import Reals Lra.
From stdpp Require Import gmap strings list.

(* ================================================================== *)
(** ** Python strings *)
(* ================================================================== *)

Module PyStr.

(** Characters [str.strip()] removes, among code points below 256:
    TAB..CR, FS..US, space, NEL (0x85) and NBSP (0xA0). *)
Definition is_space (c : ascii) : bool :=
  let n := N_of_ascii c in
  ((9 <=? n) && (n <=? 13) || (28 <=? n) && (n <=? 32)
   || (n =? 133) || (n =? 160))%N.

Definition is_empty (s : string) : bool :=
  match s with EmptyString => true | String _ _ => false end.

(** [s.lstrip()] *)
Fixpoint lstrip (s : string) : string :=
  match s with
  | EmptyString => EmptyString
  | String c r => if is_space c then lstrip r else s
  end.

(** [s.rstrip()] *)
Fixpoint rstrip (s : string) : string :=
  match s with
  | EmptyString => EmptyString
  | String c r =>
      let r' := rstrip r in
      if is_space c && is_empty r' then EmptyString else String c r'
  end.

(** [s.strip()] *)
Definition strip (s : string) : string := rstrip (lstrip s).

(** [s.split(sep)] for a one-character separator: never the empty list,
    [""] splits to [[""]]. *)
Fixpoint split (sep : ascii) (s : string) : list string :=
  match s with
  | EmptyString => [EmptyString]
  | String c r =>
      if Ascii.eqb c sep then EmptyString :: split sep r
      else match split sep r with
           | h :: t => String c h :: t
           | [] => [String c EmptyString]
           end
  end.

(** [sep.join(parts)] *)
Definition join (sep : string) (parts : list string) : string :=
  String.concat sep parts.

(** [s.startswith(p)] *)
Fixpoint startswith (s p : string) {struct p} : bool :=
  match p with
  | EmptyString => true
  | String a p' =>
      match s with
      | EmptyString => false
      | String b s' => Ascii.eqb a b && startswith s' p'
      end
  end.

(** [c.lower()] for a code point below 256: the letters A-Z and the
    capital letters of Latin-1 (0xC0-0xDE without 0xD7) move up by 32. *)
Definition lower_char (c : ascii) : ascii :=
  let n := N_of_ascii c in
  if ((65 <=? n) && (n <=? 90)
      || (192 <=? n) && (n <=? 222) && negb (n =? 215))%N
  then ascii_of_N (n + 32) else c.

(** [s.lower()] *)
Fixpoint lower (s : string) : string :=
  match s with
  | EmptyString => EmptyString
  | String c r => String (lower_char c) (lower r)
  end.

(** Every character of [s] satisfies [P]. *)
Fixpoint all_chars (P : ascii -> bool) (s : string) : bool :=
  match s with
  | EmptyString => true
  | String c r => P c && all_chars P r
  end.

Definition no_char (sep : ascii) (s : string) : bool :=
  all_chars (fun c => negb (Ascii.eqb c sep)) s.



(** A character that is neither whitespace nor the bar. *)
Definition clean (c : ascii) : bool :=
  negb (is_space c) && negb (Ascii.eqb c "|").

(** Neither leading nor trailing whitespace, and not empty. *)
Definition tight (s : string) : Prop :=
  lstrip s = s /\ rstrip s = s /\ s <> EmptyString.

End PyStr.

(* ================================================================== *)
(** ** Python floats and the format [{s:.3f}] *)
(* ================================================================== *)

(** A double: [PyFin neg m e] is [(-1)^neg * m * 2^e]. *)
Inductive pyfloat : Type :=
| PyNaN
| PyInf (neg : bool)
| PyFin (neg : bool) (m : N) (e : Z).

Module Fmt.

Definition digit_char (d : N) : ascii :=
  match d with
  | 0 => "0" | 1 => "1" | 2 => "2" | 3 => "3" | 4 => "4"
  | 5 => "5" | 6 => "6" | 7 => "7" | 8 => "8" | _ => "9"
  end%N%char.

(** Nearest integer to [num / den], ties to the even one: the rounding
    of the correctly rounded float formatting. *)
Definition round_half_even (num den : N) : N :=
  let q := (num / den)%N in
  let r := (num mod den)%N in
  match (2 * r ?= den)%N with
  | Lt => q
  | Gt => (q + 1)%N
  | Eq => if N.even q then q else (q + 1)%N
  end.

(** [m * 2^e * 1000], rounded to an integer. *)
Definition thousandths (m : N) (e : Z) : N :=
  if (0 <=? e)%Z then (m * 1000 * 2 ^ Z.to_N e)%N
  else round_half_even (m * 1000) (2 ^ Z.to_N (- e)).

Definition sign_str (neg : bool) : string :=
  if neg then "-"%string else EmptyString.

Definition pad3 (k : N) : string :=
  String (digit_char ((k / 100) mod 10))
    (String (digit_char ((k / 10) mod 10))
       (String (digit_char (k mod 10)) EmptyString)).

(** [f"{s:.3f}"] *)
Definition fmt3 (s : pyfloat) : string :=
  match s with
  | PyNaN => "nan"
  | PyInf neg => sign_str neg +:+ "inf"
  | PyFin neg m e =>
      let n := thousandths m e in
      sign_str neg +:+ NilZero.string_of_uint (N.to_uint (n / 1000))
        +:+ "." +:+ pad3 (n mod 1000)
  end.

End Fmt.

(* ================================================================== *)
(** ** The annotation rewrite of [flush] (enrich_csv.py, lines 97-101) *)
(* ================================================================== *)

Module Reasons.
Import PyStr.

Definition bar : ascii := "|".
Definition score_prefix : string := "reranker score ".

(** [p.strip() and not p.strip().startswith("reranker score ")] *)
Definition keep_clause (p : string) : bool :=
  negb (is_empty (strip p)) && negb (startswith (strip p) score_prefix).

(** [f"reranker score {s:.3f}"] *)
Definition score_clause (s : pyfloat) : string :=
  score_prefix +:+ Fmt.fmt3 s.

(** [[p.strip() for p in reasons.split("|") if ...]] *)
Definition kept_parts (reasons : string) : list string :=
  List.map strip (List.filter keep_clause (split bar reasons)).

(** Lines 97-101, from the value of [row.get("reasons") or ""] to the
    one stored in [row["reasons"]]. *)
Definition rewrite_reasons (value : string) (s : pyfloat) : string :=
  let reasons := strip value in
  let parts := kept_parts reasons in
  let parts := parts ++ [score_clause s] in
  join "|" parts.

(** The rule as the specification words it: split on the bar, trim each
    clause, drop the empty clauses and those matching the score pattern,
    append the new clause, join with the bar. *)
Definition is_score_clause (p : string) : bool := startswith p score_prefix.


(** What a kept clause is: tight, free of bars, and not a score clause. *)
Definition kept (p : string) : Prop :=
  tight p /\ no_char bar p = true /\ is_score_clause p = false.

(** The clauses of an annotation that match the score pattern. *)
Definition score_clauses (value : string) : list string :=
  List.filter is_score_clause (List.map strip (split bar value)).

End Reasons.

(* ================================================================== *)
(** ** Tensors: the part of torch the two scoring functions use *)
(* ================================================================== *)

Module Torch.

(** A tensor is its shape and its values in row-major order. *)
Record tensor (F : Type) : Type := Tensor { shape : list nat; data : list F }.
Arguments Tensor {F} _ _.
Arguments shape {F} _.
Arguments data {F} _.

Definition numel (sh : list nat) : nat := fold_right Nat.mul 1 sh.

Section Ops.
Context {F : Type}.

(** [torch.sigmoid] on one value and [torch.softmax] on one vector. *)
Variable sigmoid1 : F -> F.
Variable softmax1 : list F -> list F.

Definition wf (t : tensor F) : Prop := length (data t) = numel (shape t).

(** [t.dim()] *)
Definition dim (t : tensor F) : nat := length (shape t).

(** [t.size(-1)] ([None]: the IndexError of a tensor without dimensions) *)
Definition size_last (t : tensor F) : option nat := last (shape t).

(** Row-major data cut into [b] rows of [c] values. *)
Definition rows_of (b c : nat) (d : list F) : list (list F) :=
  List.map (fun i => take c (drop (i * c) d)) (seq 0 b).

(** [torch.sigmoid(t)] *)
Definition sigmoid (t : tensor F) : tensor F :=
  Tensor (shape t) (List.map sigmoid1 (data t)).

(** [t.squeeze(-1)]: the last dimension goes when its size is 1. *)
Definition squeeze_last (t : tensor F) : tensor F :=
  match last (shape t) with
  | Some 1 => Tensor (removelast (shape t)) (data t)
  | _ => t
  end.

(** [torch.softmax(t, dim=-1)]: softmax of every run along the last
    dimension (a tensor without dimensions counts as one value). *)
Definition softmax_last (t : tensor F) : tensor F :=
  let c := default 1 (last (shape t)) in
  let b := numel (removelast (shape t)) in
  Tensor (shape t) (concat (List.map softmax1 (rows_of b c (data t)))).

(** [t[:, k]] on a matrix; [None] is the IndexError of a column that
    does not exist. Both functions index matrices only. *)
Definition select_col (k : nat) (t : tensor F) : option (tensor F) :=
  match shape t with
  | [b; c] =>
      if k <? c then
        d ← mapM (fun row : list F => row !! k) (rows_of b c (data t));
        Some (Tensor [b] d)
      else None
  | _ => None
  end.

(** [t.reshape(t.size(0), -1)]: [size(0)] raises on a tensor without
    dimensions, and [-1] cannot be inferred when [size(0)] is 0. *)
Definition reshape_rows (t : tensor F) : option (tensor F) :=
  match shape t with
  | [] => None
  | b :: rest =>
      if b =? 0 then None else Some (Tensor [b; numel rest] (data t))
  end.

(** [t.detach().cpu().tolist()] of a vector *)
Definition tolist (t : tensor F) : list F := data t.

(** Row [i] of the logits, flattened: [c] is the number of values of a row. *)
Definition flat_row (c i : nat) (t : tensor F) : list F :=
  take c (drop (i * c) (data t)).

(** The normalization the specification describes, for logits of shape
    [(b, 1)], of shape [(b, 2)], and of any other shape with rows that
    are not empty: what [result], the outcome of a scoring function on
    these logits, has to be. *)
Definition normalized (logits : tensor F) (result : option (list F)) : Prop :=
  (forall b, shape logits = [b; 1] ->
     result = Some (List.map sigmoid1 (data logits)))
  /\ (forall b, shape logits = [b; 2] ->
       exists scores,
         result = Some scores /\ length scores = b /\
         forall i, i < b -> scores !! i = softmax1 (flat_row 2 i logits) !! 1)
  /\ (forall b rest,
       shape logits = b :: rest -> rest <> [1] -> rest <> [2] ->
       0 < b -> 0 < numel rest ->
       exists scores,
         result = Some scores /\ length scores = b /\
         forall i, i < b ->
           scores !! i = sigmoid1 <$> flat_row (numel rest) i logits !! 0).

End Ops.
End Torch.

(* ================================================================== *)
(** ** app.py: the scoring service *)
(* ================================================================== *)

(** One invocation of the score engine: its two arguments. *)
Definition call : Type := list string * list string.

Module App.
Import Torch.

(** [DEVICE]: [os.environ.get("RERANKER_DEVICE", "auto").lower()];
    [env] is the value of the variable, [None] when it is not set. *)
Definition DEVICE (env : option string) : string :=
  PyStr.lower (default "auto"%string env).

(** [pick_device()], with the global [DEVICE] as an argument;
    [cuda_available] is [torch.cuda.is_available()] and [mps_available]
    is [torch.backends.mps.is_available()]. *)
Definition pick_device (cuda_available mps_available : bool) (DEVICE : string)
  : string :=
  if bool_decide (DEVICE ∈ ["cpu"; "cuda"; "mps"]%string) then
    if bool_decide (DEVICE = "cuda"%string) && negb cuda_available then "cpu"
    else if bool_decide (DEVICE = "mps"%string) && negb mps_available then "cpu"
    else DEVICE
  else if cuda_available then "cuda"
  else if mps_available then "mps"
  else "cpu".

(** A device that can be used: cpu, or an accelerator that is there. *)
Definition usable (cuda_available mps_available : bool) (d : string) : Prop :=
  d = "cpu"%string
  \/ (d = "cuda"%string /\ cuda_available = true)
  \/ (d = "mps"%string /\ mps_available = true).

Section Service.
Context {F Enc : Type}.
Variable sigmoid1 : F -> F.
Variable softmax1 : list F -> list F.

(** [tokenizer(queries, texts, padding=True, truncation=True,
    max_length=n, return_tensors="pt")] *)
Definition Tokenizer : Type := list string -> list string -> Z -> option Enc.

(** The model applied to the encoded batch, then [.logits]. *)
Definition Model : Type := Enc -> option (tensor F).

(** [{k: v.to(device) for k, v in enc.items()}] *)
Variable to_device : string -> Enc -> option Enc.

(** The module's globals; [tokenizer] and [model] are [None] until [_load]. *)
Record globals : Type := Globals {
  tokenizer : option Tokenizer;
  model : option Model;
  device : string;
  MAX_LENGTH : Z
}.

(** The branches of [_score_pairs] on the shape of the logits (lines
    92-99), up to the vector of scores. *)
Definition normalize (logits : tensor F) : option (tensor F) :=
  if (dim logits =? 2) && bool_decide (size_last logits = Some 1) then
    Some (sigmoid sigmoid1 (squeeze_last logits))
  else if (dim logits =? 2) && bool_decide (size_last logits = Some 2) then
    select_col 1 (softmax_last softmax1 logits)
  else
    r ← reshape_rows logits;
    col ← select_col 0 r;
    Some (sigmoid sigmoid1 col).

(** [None] is the AssertionError before [_load], or an exception of the
    tokenizer, of the model or of an index out of range. *)
Definition _score_pairs (g : globals) (queries texts : list string)
  : option (list F) :=
  match tokenizer g, model g with
  | Some tok, Some mdl =>
      enc ← tok queries texts (MAX_LENGTH g);
      enc ← to_device (device g) enc;
      logits ← mdl enc;
      scores ← normalize logits;
      Some (tolist scores)
  | _, _ => None
  end.

Record BatchPair : Type := Pair { query : string; text : string; id : option string }.

Record ScoreEntry : Type := Entry { entry_id : option string; entry_score : F }.

(** [score]: the handler of POST /score. *)
Definition score (g : globals) (query text : string) : option F :=
  scores ← _score_pairs g [query] [text];
  scores !! 0.

(** [batch_score]: the handler of POST /batch_score. The first component
    lists the invocations of [_score_pairs] the handler made. *)
Definition batch_score (g : globals) (pairs : list BatchPair)
  : list call * option (list ScoreEntry) :=
  match pairs with
  | [] => ([], Some [])
  | _ =>
      let queries := List.map query pairs in
      let texts := List.map text pairs in
      ([(queries, texts)],
       scores ← _score_pairs g queries texts;
       Some (fold_left
               (fun out ps => out ++ [Entry (id (fst ps)) (snd ps)])
               (zip pairs scores) []))
  end.

(** The globals when the module has been imported: nothing loaded,
    [device = pick_device()]. *)
Definition imported (cuda_available mps_available : bool)
    (env_device : option string) (max_length : Z) : globals :=
  Globals None None
    (pick_device cuda_available mps_available (DEVICE env_device)) max_length.

(** [_load], given what the two [from_pretrained] calls returned. *)
Definition _load (tok : Tokenizer) (mdl : Model) (g : globals) : globals :=
  Globals (Some tok) (Some mdl) (device g) (MAX_LENGTH g).

(** The answer of GET /health. *)
Record Health : Type := MkHealth {
  health_ok : bool;
  health_model : string;
  health_device : string
}.

Definition health (MODEL_NAME : string) (g : globals) : Health :=
  MkHealth true MODEL_NAME (device g).

End Service.
End App.

(* ================================================================== *)
(** ** enrich_csv.py: the enrichment job *)
(* ================================================================== *)

Module Enrich.
Import Torch PyStr.

Section Engine.
Context {F Enc : Type}.
Variable sigmoid1 : F -> F.
Variable softmax1 : list F -> list F.
Variable to_device : string -> Enc -> option Enc.

(** The branches of [score_pairs] on the shape of the logits (lines
    45-50), up to the vector of scores. *)
Definition normalize (logits : tensor F) : option (tensor F) :=
  if (dim logits =? 2) && bool_decide (size_last logits = Some 1) then
    Some (sigmoid sigmoid1 (squeeze_last logits))
  else if (dim logits =? 2) && bool_decide (size_last logits = Some 2) then
    select_col 1 (softmax_last softmax1 logits)
  else
    r ← reshape_rows logits;
    col ← select_col 0 r;
    Some (sigmoid sigmoid1 col).

Definition score_pairs
    (tokenizer : list string -> list string -> Z -> option Enc)
    (model : Enc -> option (tensor F))
    (device : string) (queries texts : list string) (max_length : Z)
  : option (list F) :=
  enc ← tokenizer queries texts max_length;
  enc ← to_device device enc;
  logits ← model enc;
  scores ← normalize logits;
  Some (tolist scores).

End Engine.

(** [pick_device(device)]; the two booleans are as in the service. *)
Definition pick_device (cuda_available mps_available : bool) (device : string)
  : string :=
  let d := lower (if is_empty device then "auto"%string else device) in
  if bool_decide (d ∈ ["cpu"; "cuda"; "mps"]%string) then
    if bool_decide (d = "cuda"%string) && negb cuda_available then "cpu"
    else if bool_decide (d = "mps"%string) && negb mps_available then "cpu"
    else d
  else if cuda_available then "cuda"
  else if mps_available then "mps"
  else "cpu".

(** A row of [csv.DictReader]. *)
Abbreviation Row := (gmap string (option string)).

(** [row.get(key) or ""] *)
Definition get_or_empty (row : Row) (key : string) : string :=
  match row !! key with
  | Some (Some v) => v
  | _ => EmptyString
  end.

(** The body of the loop of [flush] up to [writer.writerow]: the row with
    its annotation rewritten. *)
Definition annotate (row : Row) (s : pyfloat) : Row :=
  <["reasons" := Some (Reasons.rewrite_reasons (get_or_empty row "reasons") s)]> row.

(** The stripped query and text of a row, and whether one is blank. *)
Definition query_of (row : Row) : string := strip (get_or_empty row "gameName").
Definition text_of (row : Row) : string := strip (get_or_empty row "candidateTitle").
Definition blank (row : Row) : bool :=
  is_empty (query_of row) || is_empty (text_of row).

(** A row without its annotation column. *)
Definition plain (row : Row) : Row := delete "reasons" row.

Definition scorable (row : Row) : bool := negb (blank row).

(** The variables of [main] that the loop and [flush] change, the rows
    handed to the writer, and the engine invocations made so far. *)
Record state : Type := State {
  buf_rows : list Row;
  buf_q : list string;
  buf_t : list string;
  total : Z;
  written : list Row;
  calls : list call
}.

Definition init : state := State [] [] [] 0 [] [].

(** The three buffers run in parallel and hold rows that can be scored. *)
Definition parallel (st : state) : Prop :=
  length (buf_q st) = length (buf_rows st)
  /\ length (buf_t st) = length (buf_rows st)
  /\ forall r, In r (buf_rows st) -> blank r = false.

Section Job.

(** [score_pairs(tokenizer, model, device, _, _, args.max_length)] *)
Variable engine : list string -> list string -> option (list pyfloat).
Variable batch_size : Z.
Variable max_rows : Z.

(** One turn of [for row, s in zip(buf_rows, scores)]. *)
Definition write_scored (st : state) (rs : Row * pyfloat) : state :=
  State (buf_rows st) (buf_q st) (buf_t st) (total st + 1)
        (written st ++ [annotate (fst rs) (snd rs)]) (calls st).

Definition flush (st : state) : option state :=
  match buf_rows st with
  | [] => Some st
  | _ =>
      scores ← engine (buf_q st) (buf_t st);
      let st := State (buf_rows st) (buf_q st) (buf_t st) (total st)
                      (written st) (calls st ++ [(buf_q st, buf_t st)]) in
      let st := fold_left write_scored (zip (buf_rows st) scores) st in
      Some (State [] [] [] (total st) (written st) (calls st))
  end.

(** [args.max_rows and total >= args.max_rows] *)
Definition cap_reached (st : state) : bool :=
  negb (max_rows =? 0)%Z && (max_rows <=? total st)%Z.

(** The body of [for row in reader], after the test of the cap. *)
Definition body (st : state) (row : Row) : option state :=
  let q := query_of row in
  let t := text_of row in
  if is_empty q || is_empty t then
    Some (State (buf_rows st) (buf_q st) (buf_t st) (total st + 1)
                (written st ++ [row]) (calls st))
  else
    let st := State (buf_rows st ++ [row]) (buf_q st ++ [q]) (buf_t st ++ [t])
                    (total st) (written st) (calls st) in
    if (batch_size <=? Z.of_nat (length (buf_rows st)))%Z then flush st
    else Some st.

Fixpoint loop (st : state) (rows : list Row) : option state :=
  match rows with
  | [] => Some st
  | row :: rest =>
      if cap_reached st then Some st
      else st' ← body st row; loop st' rest
  end.

(** The loop over the reader, then the last [flush]. *)
Definition run (rows : list Row) : option state :=
  st ← loop init rows; flush st.

(** [row] is a row [r] of [src] that can be scored, rewritten with a
    score [s] that one of the engine invocations [cs] returned. *)
Definition scored_with (src : list Row) (cs : list call) (row : Row)
    (s : pyfloat) : Prop :=
  exists r qs ts scores,
    In r src /\ blank r = false /\
    In (qs, ts) cs /\ engine qs ts = Some scores /\ In s scores /\
    row = annotate r s.

(** Every buffered row is a row of [src] that can be scored, and every
    row written is a blank row of [src] or a row of [src] scored in
    this run. *)
Definition accounted (src : list Row) (st : state) : Prop :=
  (forall r, In r (buf_rows st) -> In r src /\ blank r = false)
  /\ (forall row, In row (written st) ->
        (blank row = true /\ In row src)
        \/ exists s, scored_with src (calls st) row s).

(** No query and no text that is buffered, or that the engine was given,
    is empty. *)
Definition nonblank_inputs (st : state) : Prop :=
  Forall (fun q => q <> EmptyString) (buf_q st ++ buf_t st)
  /\ Forall (fun c : call => Forall (fun q => q <> EmptyString) (fst c ++ snd c))
       (calls st).

(** An engine invocation as the job makes them: as many texts as
    queries, at least one and at most a batch of them, all trimmed and
    not empty. *)
Definition fit (c : call) : Prop :=
  length (fst c) = length (snd c) /\ fst c <> []
  /\ (Z.of_nat (length (fst c)) <= Z.max batch_size 1)%Z
  /\ Forall tight (fst c ++ snd c).

(** The buffers between two turns of the loop: parallel, shorter than a
    batch, holding trimmed strings; and the invocations made so far. *)
Definition well_batched (st : state) : Prop :=
  length (buf_q st) = length (buf_rows st)
  /\ length (buf_t st) = length (buf_rows st)
  /\ (Z.of_nat (length (buf_rows st)) <= Z.max batch_size 1 - 1)%Z
  /\ Forall tight (buf_q st ++ buf_t st)
  /\ Forall fit (calls st).

(** The engine returns as many scores as it is given pairs. *)
Definition one_score_per_pair : Prop :=
  forall qs ts scores,
    length qs = length ts -> engine qs ts = Some scores ->
    length scores = length qs.

(** The bound the cap and the batch size put on the rows written. *)
Definition capped (st : state) : Prop :=
  let B := Z.max batch_size 1 in
  ((total st <= max_rows /\ Z.of_nat (length (buf_rows st)) <= B - 1)
   \/ (total st <= max_rows - 1 + B /\ buf_rows st = []))%Z.

End Job.

End Enrich.

(* ================================================================== *)
(** ** Concrete inputs *)
(* ================================================================== *)

Module Sample.
Import Enrich.

(** The doubles nearest to 0.812 and to 0.9. *)
Definition f0812 : pyfloat := PyFin false 7313845794849686 (-53).
Definition f0900 : pyfloat := PyFin false 8106479329266893 (-53).

Definition mk_row (name title reasons : string) : Row :=
  <["gameName" := Some name]>
    (<["candidateTitle" := Some title]> (<["reasons" := Some reasons]> ∅)).

Definition chess : Row := mk_row "Chess" "Chess Online" "title match".
Definition go : Row := mk_row "Go" "Go Online" "same studio".
Definition hex : Row := mk_row "Hex" "Hex Deluxe" "".
Definition nameless : Row := mk_row "  " "Shogi Online" "no name".

(** The row [chess] after a run that scored it 0.812, and after a run
    that scored it 0.9. *)
Definition chess_0812 : Row :=
  mk_row "Chess" "Chess Online" "title match|reranker score 0.812".
Definition chess_0900 : Row :=
  mk_row "Chess" "Chess Online" "title match|reranker score 0.900".

(** An engine that gives every pair the score [s]. *)
Definition const_engine (s : pyfloat) (queries texts : list string)
  : option (list pyfloat) :=
  Some (List.map (fun _ => s) queries).

(** An engine that returns a single score, whatever it is given. *)
Definition single_score_engine (s : pyfloat) (queries texts : list string)
  : option (list pyfloat) :=
  Some [s].

(** A tokenizer that pairs the queries with the texts, a transfer that
    keeps the batch where it is, and a model with one logit per pair,
    which is 0. *)
Definition pair_tokenizer (queries texts : list string) (max_length : Z)
  : option (list (string * string)) :=
  Some (zip queries texts).

Definition same_device (device : string) (enc : list (string * string))
  : option (list (string * string)) :=
  Some enc.

Definition zero_model (enc : list (string * string)) : option (Torch.tensor R) :=
  Some (Torch.Tensor [length enc; 1] (List.map (fun _ => 0%R) enc)).

(** Models with logits without a label dimension, all 0, and with two
    logits per pair, 0 and 1. *)
Definition vector_model (enc : list (string * string)) : option (Torch.tensor R) :=
  Some (Torch.Tensor [length enc] (List.map (fun _ => 0%R) enc)).

Definition binary_model (enc : list (string * string)) : option (Torch.tensor R) :=
  Some (Torch.Tensor [length enc; 2]
          (concat (List.map (fun _ => [0%R; 1%R]) enc))).

End Sample.

(** Sigmoid and softmax on real numbers. *)
Module RealOps.

Definition sigmoid1 (x : R) : R := (/ (1 + exp (- x)))%R.

Definition sum_exp (v : list R) : R := fold_right Rplus 0%R (List.map exp v).

Definition softmax1 (v : list R) : list R :=
  List.map (fun x => (exp x / sum_exp v)%R) v.

End RealOps.

(* ================================================================== *)
(** ** Facts about lists *)
(* ================================================================== *)

Module ListFacts.

Lemma map_zip_with {A B C} (f : A -> B -> C) (l : list A) (k : list B) :
  List.map (fun ab => f (fst ab) (snd ab)) (zip l k) = zip_with f l k.
Proof.
  revert k. induction l as [|a l IH]; intros [|b k]; simpl; [done..|].
  by rewrite IH.
Qed.

Lemma length_zip_le {A B} (l : list A) (k : list B) :
  length (zip l k) <= length l.
Proof.
  revert k. induction l as [|a l IH]; intros [|b k]; simpl; try lia.
  specialize (IH k). lia.
Qed.

Lemma in_zip_l {A B} (l : list A) (k : list B) a b :
  In (a, b) (zip l k) -> In a l /\ In b k.
Proof.
  revert k. induction l as [|x l IH]; intros [|y k]; simpl; try done.
  intros [[= -> ->]|H]; [by split; left|].
  destruct (IH k H). by split; right.
Qed.

End ListFacts.

(* ================================================================== *)
(** ** Facts about the string primitives *)
(* ================================================================== *)

Module PyStrFacts.
Import PyStr.

#[local] Arguments String.append !_ _ / : simpl nomatch.

Lemma is_empty_true s : is_empty s = true <-> s = EmptyString.
Proof. destruct s; simpl; split; congruence. Qed.

Lemma is_empty_false s : is_empty s = false <-> s <> EmptyString.
Proof. destruct s; simpl; split; congruence. Qed.



(** *** Stripping *)

Lemma lstrip_idem s : lstrip (lstrip s) = lstrip s.
Proof.
  induction s as [|c r IH]; simpl; [done|].
  destruct (is_space c) eqn:E; [done|]. simpl. by rewrite E.
Qed.

Lemma rstrip_idem s : rstrip (rstrip s) = rstrip s.
Proof.
  induction s as [|c r IH]; simpl; [done|].
  destruct (is_space c && is_empty (rstrip r)) eqn:E; [done|].
  simpl. by rewrite IH, E.
Qed.

Lemma lstrip_rstrip s : lstrip (rstrip s) = rstrip (lstrip s).
Proof.
  induction s as [|c r IH]; simpl; [done|].
  destruct (is_space c) eqn:E; simpl.
  - destruct (is_empty (rstrip r)) eqn:E'; simpl.
    + apply is_empty_true in E'. rewrite <- IH, E'. done.
    + by rewrite E.
  - by rewrite E.
Qed.

Lemma strip_idem s : strip (strip s) = strip s.
Proof.
  unfold strip. by rewrite lstrip_rstrip, lstrip_idem, rstrip_idem.
Qed.



Lemma lstrip_strip s : lstrip (strip s) = strip s.
Proof. unfold strip. by rewrite lstrip_rstrip, lstrip_idem. Qed.

Lemma rstrip_strip s : rstrip (strip s) = strip s.
Proof. unfold strip. by rewrite rstrip_idem. Qed.

(** *** Splitting a stripped string *)







(** *** Characters *)

Lemma all_chars_app P a b :
  all_chars P (a +:+ b) = all_chars P a && all_chars P b.
Proof.
  induction a as [|c a IH]; simpl; [done|]. by rewrite IH, andb_assoc.
Qed.

Lemma all_chars_lstrip P s : all_chars P s = true -> all_chars P (lstrip s) = true.
Proof.
  induction s as [|c r IH]; simpl; [done|]. intros [Hc Hr]%andb_true_iff.
  destruct (is_space c); [by apply IH|]. simpl. by rewrite Hc, Hr.
Qed.

Lemma all_chars_rstrip P s : all_chars P s = true -> all_chars P (rstrip s) = true.
Proof.
  induction s as [|c r IH]; simpl; [done|]. intros [Hc Hr]%andb_true_iff.
  destruct (is_space c && is_empty (rstrip r)); [done|]. simpl.
  by rewrite Hc, IH.
Qed.

Lemma all_chars_strip P s : all_chars P s = true -> all_chars P (strip s) = true.
Proof. intros H. by apply all_chars_rstrip, all_chars_lstrip. Qed.

Lemma all_chars_impl (P Q : ascii -> bool) s :
  (forall c, P c = true -> Q c = true) ->
  all_chars P s = true -> all_chars Q s = true.
Proof.
  intros HPQ. induction s as [|c r IH]; simpl; [done|].
  intros [Hc Hr]%andb_true_iff. by rewrite (HPQ c Hc), IH.
Qed.

(** The clauses [split] returns do not contain the separator. *)
Lemma split_no_sep sep s : Forall (fun p => no_char sep p = true) (split sep s).
Proof.
  induction s as [|c r IH]; simpl; [by repeat constructor|].
  destruct (Ascii.eqb c sep) eqn:E; [by constructor|].
  destruct (split sep r) as [|h t].
  - constructor; [|done]. unfold no_char. simpl. by rewrite E.
  - inversion_clear IH as [|? ? Hh Ht]. constructor; [|done].
    unfold no_char in *. simpl. by rewrite E, Hh.
Qed.

(** *** Joining and splitting again *)

Lemma split_no_char sep s : no_char sep s = true -> split sep s = [s].
Proof.
  unfold no_char. induction s as [|c r IH]; simpl; [done|].
  intros [Hc Hr]%andb_true_iff. apply negb_true_iff in Hc. rewrite Hc.
  by rewrite (IH Hr).
Qed.

Lemma split_app_sep sep a b :
  no_char sep a = true ->
  split sep (a +:+ String sep b) = a :: split sep b.
Proof.
  unfold no_char. induction a as [|c a IH]; simpl.
  - by rewrite Ascii.eqb_refl.
  - intros [Hc Ha]%andb_true_iff. apply negb_true_iff in Hc. rewrite Hc.
    by rewrite (IH Ha).
Qed.

Lemma join_cons sep p q l :
  join sep (p :: q :: l) = p +:+ sep +:+ join sep (q :: l).
Proof. done. Qed.

Lemma split_join sep l :
  l <> [] -> Forall (fun p => no_char sep p = true) l ->
  split sep (join (String sep EmptyString) l) = l.
Proof.
  induction l as [|p [|q l] IH]; intros Hne Hall; [done| |].
  - simpl. apply split_no_char. by inversion Hall.
  - rewrite join_cons. inversion_clear Hall as [|? ? Hp Hl].
    change (String sep EmptyString +:+ ?x) with (String sep x).
    rewrite split_app_sep by done. f_equal. by apply IH.
Qed.

(** *** Tight strings *)

Lemma length_lstrip s : String.length (lstrip s) <= String.length s.
Proof.
  induction s as [|c r IH]; simpl; [lia|].
  destruct (is_space c); simpl; lia.
Qed.

Lemma lstrip_fixed_head c r : lstrip (String c r) = String c r -> is_space c = false.
Proof.
  simpl. destruct (is_space c); [|done]. intros H.
  pose proof (length_lstrip r) as Hl. rewrite H in Hl. simpl in Hl. lia.
Qed.

Lemma lstrip_app a b :
  lstrip a = a -> a <> EmptyString -> lstrip (a +:+ b) = a +:+ b.
Proof.
  destruct a as [|c a]; [done|]. intros H _.
  apply lstrip_fixed_head in H. simpl. by rewrite H.
Qed.

Lemma append_assoc a b c : a +:+ b +:+ c = (a +:+ b) +:+ c.
Proof. induction a as [|x a IH]; simpl; [done|]. by rewrite IH. Qed.

Lemma app_empty a b : a +:+ b = EmptyString -> b = EmptyString.
Proof. by destruct a. Qed.

Lemma rstrip_app a b :
  rstrip b = b -> b <> EmptyString -> rstrip (a +:+ b) = a +:+ b.
Proof.
  intros Hb Hne. induction a as [|c a IH]; simpl; [done|].
  rewrite IH. destruct (is_empty (a +:+ b)) eqn:E.
  - apply is_empty_true, app_empty in E. done.
  - by rewrite andb_false_r.
Qed.

Lemma tight_strip s : strip s <> EmptyString -> tight (strip s).
Proof.
  intros H. split; [apply lstrip_strip|]. split; [apply rstrip_strip|done].
Qed.

Lemma strip_tight s : tight s -> strip s = s.
Proof. intros (Hl & Hr & _). unfold strip. by rewrite Hl. Qed.

Lemma tight_app a x b : tight a -> tight b -> tight (a +:+ x +:+ b).
Proof.
  intros (Hla & _ & Hna) (_ & Hrb & Hnb). split; [by apply lstrip_app|].
  split.
  - rewrite append_assoc. by apply rstrip_app.
  - destruct a; [done|]. done.
Qed.

Lemma tight_join sep l : l <> [] -> Forall tight l -> tight (join sep l).
Proof.
  induction l as [|p [|q l] IH]; intros Hne Hall; [done| |].
  - simpl. by inversion Hall.
  - rewrite join_cons. inversion_clear Hall as [|? ? Hp Hl].
    apply tight_app; [done|]. by apply IH.
Qed.

Lemma rstrip_no_space s :
  all_chars (fun c => negb (is_space c)) s = true -> rstrip s = s.
Proof.
  induction s as [|c r IH]; simpl; [done|].
  intros [Hc Hr]%andb_true_iff. apply negb_true_iff in Hc.
  by rewrite Hc, (IH Hr).
Qed.

End PyStrFacts.

(* ================================================================== *)
(** ** Facts about the score format and the annotation rewrite *)
(* ================================================================== *)

Module FmtFacts.
Import PyStr PyStrFacts Fmt.

#[local] Arguments String.append !_ _ / : simpl nomatch.

Lemma digit_char_clean d : clean (digit_char d) = true.
Proof.
  destruct d as [|p]; [done|].
  do 4 (try destruct p as [p|p|]); done.
Qed.

Lemma string_of_uint_clean d : all_chars clean (NilEmpty.string_of_uint d) = true.
Proof. induction d; simpl; [done|by rewrite IHd..]. Qed.

Lemma string_of_uint0_clean d : all_chars clean (NilZero.string_of_uint d) = true.
Proof. destruct d; try done; apply (string_of_uint_clean (_ d)). Qed.

Lemma sign_str_clean neg : all_chars clean (sign_str neg) = true.
Proof. by destruct neg. Qed.

Lemma fmt3_clean s : all_chars clean (fmt3 s) = true.
Proof.
  destruct s as [|neg|neg m e]; simpl; [done|by destruct neg|].
  rewrite !all_chars_app, sign_str_clean, string_of_uint0_clean. simpl.
  by rewrite !digit_char_clean.
Qed.

Lemma fmt3_nonempty s : fmt3 s <> EmptyString.
Proof.
  destruct s as [|neg|neg m e]; simpl; [done|by destruct neg|].
  intros H. apply app_empty, app_empty in H. discriminate.
Qed.

End FmtFacts.

Module ReasonsFacts.
Import PyStr PyStrFacts Fmt FmtFacts Reasons.

#[local] Arguments String.append !_ _ / : simpl nomatch.


Lemma score_clause_is_score s : is_score_clause (score_clause s) = true.
Proof. reflexivity. Qed.

Lemma score_clause_no_bar s : no_char bar (score_clause s) = true.
Proof.
  unfold no_char, score_clause. rewrite all_chars_app. simpl.
  apply (all_chars_impl clean); [|apply fmt3_clean].
  intros c [_ H]%andb_true_iff. done.
Qed.

Lemma score_clause_tight s : tight (score_clause s).
Proof.
  unfold score_clause. split; [done|]. split; [|done].
  apply rstrip_app; [|apply fmt3_nonempty].
  apply rstrip_no_space, (all_chars_impl clean); [|apply fmt3_clean].
  by intros c [H _]%andb_true_iff.
Qed.

Lemma kept_parts_kept r : Forall kept (kept_parts r).
Proof.
  unfold kept_parts. apply List.Forall_forall. intros p Hp.
  apply in_map_iff in Hp as (p0 & <- & Hp0).
  apply filter_In in Hp0 as [Hin Hk].
  unfold keep_clause in Hk. apply andb_true_iff in Hk as [Hne Hns].
  apply negb_true_iff in Hne, Hns. apply is_empty_false in Hne.
  split; [by apply tight_strip|]. split; [|done].
  apply all_chars_strip.
  pose proof (split_no_sep bar r) as Hall.
  rewrite List.Forall_forall in Hall. by apply Hall.
Qed.

Lemma keep_clause_kept p : kept p -> keep_clause p = true.
Proof.
  intros (Ht & _ & Hs). unfold keep_clause. rewrite (strip_tight p Ht).
  destruct Ht as (_ & _ & Hne). apply is_empty_false in Hne.
  unfold is_score_clause in Hs. by rewrite Hne, Hs.
Qed.

Lemma keep_clause_score s : keep_clause (score_clause s) = false.
Proof.
  unfold keep_clause. rewrite (strip_tight _ (score_clause_tight s)).
  fold (is_score_clause (score_clause s)).
  by rewrite score_clause_is_score, andb_false_r.
Qed.

Lemma filter_keep_kept l : Forall kept l -> List.filter keep_clause l = l.
Proof.
  induction 1 as [|p l Hp _ IH]; simpl; [done|].
  by rewrite (keep_clause_kept p Hp), IH.
Qed.

Lemma filter_score_kept l : Forall kept l -> List.filter is_score_clause l = [].
Proof.
  induction 1 as [|p l (_ & _ & Hp) _ IH]; simpl; [done|]. by rewrite Hp.
Qed.

Lemma map_strip_tight l : Forall tight l -> List.map strip l = l.
Proof.
  induction 1 as [|p l Hp _ IH]; simpl; [done|].
  by rewrite (strip_tight p Hp), IH.
Qed.

Lemma kept_tight l : Forall kept l -> Forall tight l.
Proof. intros H. eapply Forall_impl; [exact H|]. by intros p (Hp & _). Qed.

Lemma kept_no_bar l : Forall kept l -> Forall (fun p => no_char bar p = true) l.
Proof. intros H. eapply Forall_impl; [exact H|]. by intros p (_ & Hp & _). Qed.

(** The clauses of a rewritten annotation: the kept ones, then the score. *)
Lemma split_rewrite_reasons v s :
  split bar (rewrite_reasons v s) = kept_parts (strip v) ++ [score_clause s].
Proof.
  unfold rewrite_reasons. apply (split_join bar).
  - by destruct (kept_parts (strip v)).
  - apply Forall_app. split; [apply kept_no_bar, kept_parts_kept|].
    constructor; [apply score_clause_no_bar|done].
Qed.

Lemma rewrite_reasons_tight v s : tight (rewrite_reasons v s).
Proof.
  unfold rewrite_reasons. apply tight_join.
  - by destruct (kept_parts (strip v)).
  - apply Forall_app. split; [apply kept_tight, kept_parts_kept|].
    constructor; [apply score_clause_tight|done].
Qed.

(** A rewritten annotation holds one score clause, the new one. *)
Lemma score_clauses_rewrite v s :
  score_clauses (rewrite_reasons v s) = [score_clause s].
Proof.
  unfold score_clauses. rewrite split_rewrite_reasons.
  pose proof (kept_parts_kept (strip v)) as Hk.
  rewrite map_strip_tight.
  - rewrite List.filter_app, (filter_score_kept _ Hk).
    cbn [List.filter app]. by rewrite score_clause_is_score.
  - apply Forall_app. split; [by apply kept_tight|].
    constructor; [apply score_clause_tight|done].
Qed.

(** Rewriting twice is rewriting once with the second score. *)
Lemma rewrite_reasons_replace v s1 s2 :
  rewrite_reasons (rewrite_reasons v s1) s2 = rewrite_reasons v s2.
Proof.
  unfold rewrite_reasons at 1.
  rewrite (strip_tight _ (rewrite_reasons_tight v s1)).
  unfold kept_parts at 1. rewrite split_rewrite_reasons.
  pose proof (kept_parts_kept (strip v)) as Hk.
  rewrite List.filter_app, (filter_keep_kept _ Hk). cbn [List.filter].
  rewrite keep_clause_score, app_nil_r.
  by rewrite (map_strip_tight _ (kept_tight _ Hk)).
Qed.




End ReasonsFacts.

(* ================================================================== *)
(** ** Facts about the enrichment job *)
(* ================================================================== *)

Module EnrichFacts.
Import PyStr Reasons Enrich ListFacts.

Section Job.
Variable engine : list string -> list string -> option (list pyfloat).
Variable batch_size : Z.
Variable max_rows : Z.

#[local] Abbreviation flush := (flush engine).
#[local] Abbreviation body := (body engine batch_size).
#[local] Abbreviation loop := (loop engine batch_size max_rows).
#[local] Abbreviation run := (run engine batch_size max_rows).

Lemma fold_write_scored l st :
  fold_left write_scored l st
  = State (buf_rows st) (buf_q st) (buf_t st)
          (total st + Z.of_nat (length l))
          (written st ++ List.map (fun rs => annotate (fst rs) (snd rs)) l)
          (calls st).
Proof.
  revert st. induction l as [|rs l IH]; intros st; simpl.
  - destruct st; simpl. f_equal; [lia|by rewrite app_nil_r].
  - rewrite IH. simpl. f_equal; [lia|by rewrite <- app_assoc].
Qed.

Lemma flush_empty st : buf_rows st = [] -> flush st = Some st.
Proof. unfold Enrich.flush. by intros ->. Qed.

Lemma flush_scores st scores :
  buf_rows st <> [] -> engine (buf_q st) (buf_t st) = Some scores ->
  flush st
  = Some (State [] [] []
            (total st + Z.of_nat (length (zip (buf_rows st) scores)))
            (written st
               ++ List.map (fun rs => annotate (fst rs) (snd rs))
                    (zip (buf_rows st) scores))
            (calls st ++ [(buf_q st, buf_t st)])).
Proof.
  intros Hne He. unfold Enrich.flush.
  destruct (buf_rows st) as [|r rs] eqn:Hb; [done|].
  rewrite He. cbn [mbind option_bind]. by rewrite fold_write_scored.
Qed.

(** [flush] raises exactly when the engine does. *)
Lemma flush_cases st st' :
  flush st = Some st' ->
  (buf_rows st = [] /\ st' = st)
  \/ exists scores,
       buf_rows st <> [] /\ engine (buf_q st) (buf_t st) = Some scores /\
       st' = State [] [] []
               (total st + Z.of_nat (length (zip (buf_rows st) scores)))
               (written st
                  ++ List.map (fun rs => annotate (fst rs) (snd rs))
                       (zip (buf_rows st) scores))
               (calls st ++ [(buf_q st, buf_t st)]).
Proof.
  intros H. destruct (decide (buf_rows st = [])) as [Hb|Hb].
  - left. rewrite flush_empty in H by done. by injection H.
  - right. destruct (engine (buf_q st) (buf_t st)) as [scores|] eqn:He.
    + exists scores. rewrite (flush_scores st scores) in H by done.
      by injection H as <-.
    + unfold Enrich.flush in H. rewrite He in H.
      by destruct (buf_rows st).
Qed.

Lemma body_blank st row :
  blank row = true ->
  body st row = Some (State (buf_rows st) (buf_q st) (buf_t st) (total st + 1)
                            (written st ++ [row]) (calls st)).
Proof. unfold Enrich.body, blank. by intros ->. Qed.

Lemma body_scorable st row :
  blank row = false ->
  body st row
  = let st1 := State (buf_rows st ++ [row]) (buf_q st ++ [query_of row])
                     (buf_t st ++ [text_of row]) (total st) (written st)
                     (calls st) in
    if (batch_size <=? Z.of_nat (length (buf_rows st1)))%Z then flush st1
    else Some st1.
Proof. unfold Enrich.body, blank. by intros ->. Qed.

Lemma loop_cons st row rest :
  cap_reached max_rows st = false ->
  loop st (row :: rest) = body st row ≫= fun st' => loop st' rest.
Proof. simpl. by intros ->. Qed.

Lemma loop_break st row rest :
  cap_reached max_rows st = true -> loop st (row :: rest) = Some st.
Proof. simpl. by intros ->. Qed.

(** One turn of the loop on a row that can be scored: the row joins the
    buffer, and the buffer is flushed when it has reached the batch size. *)
Lemma loop_buffer st row rest :
  cap_reached max_rows st = false -> blank row = false ->
  (Z.of_nat (length (buf_rows st)) + 1 < batch_size)%Z ->
  loop st (row :: rest)
  = loop (State (buf_rows st ++ [row]) (buf_q st ++ [query_of row])
                (buf_t st ++ [text_of row]) (total st) (written st) (calls st))
         rest.
Proof.
  intros Hcap Hnb Hlt. rewrite loop_cons, body_scorable by done.
  cbv zeta. cbn [buf_rows]. rewrite length_app. cbn [length].
  destruct (Z.leb_spec batch_size (Z.of_nat (length (buf_rows st) + 1)));
    [lia|done].
Qed.

Lemma loop_flush st row rest scores :
  cap_reached max_rows st = false -> blank row = false ->
  (batch_size <= Z.of_nat (length (buf_rows st)) + 1)%Z ->
  engine (buf_q st ++ [query_of row]) (buf_t st ++ [text_of row]) = Some scores ->
  loop st (row :: rest)
  = loop (State [] [] []
            (total st + Z.of_nat (length (zip (buf_rows st ++ [row]) scores)))
            (written st
               ++ List.map (fun rs => annotate (fst rs) (snd rs))
                    (zip (buf_rows st ++ [row]) scores))
            (calls st ++ [(buf_q st ++ [query_of row], buf_t st ++ [text_of row])]))
         rest.
Proof.
  intros Hcap Hnb Hle He. rewrite loop_cons, body_scorable by done.
  cbv zeta. cbn [buf_rows]. rewrite length_app. cbn [length].
  destruct (Z.leb_spec batch_size (Z.of_nat (length (buf_rows st) + 1)));
    [|lia].
  erewrite flush_scores; [done| |exact He].
  cbn [buf_rows]. by destruct (buf_rows st).
Qed.

(** *** Every written row is accounted for *)

Lemma scored_with_more src cs cs' row s :
  scored_with engine src cs row s -> scored_with engine src (cs ++ cs') row s.
Proof.
  intros (r & qs & ts & scores & Hr & Hb & Hin & He & Hs & ->).
  exists r, qs, ts, scores. repeat (split; [done|]).
  split; [|done]. apply in_or_app. by left.
Qed.

Lemma flush_accounted src st st' :
  accounted engine src st -> flush st = Some st' -> accounted engine src st'.
Proof.
  intros [Hbuf Hacc] Hf.
  destruct (flush_cases st st' Hf) as [[_ ->]|(scores & Hne & He & ->)];
    [done|].
  split; [by intros r []|]. intros row Hin. cbn [written calls] in *.
  apply in_app_or in Hin as [Hin|Hin].
  - destruct (Hacc row Hin) as [Hb|[s Hs]]; [by left|].
    right. exists s. by apply scored_with_more.
  - right. apply in_map_iff in Hin as ([r s] & <- & Hin).
    apply in_zip_l in Hin as [Hr Hs]. destruct (Hbuf r Hr) as [Hsrc Hnb].
    exists s, r, (buf_q st), (buf_t st), scores. cbn [fst snd].
    repeat (split; [done|]).
    split; [apply in_or_app; right; by left|done].
Qed.

Lemma body_accounted src st row st' :
  In row src ->
  accounted engine src st -> body st row = Some st' -> accounted engine src st'.
Proof.
  intros Hsrc [Hbuf Hacc] Hb. destruct (blank row) eqn:Hbl.
  - rewrite body_blank in Hb by done. injection Hb as <-.
    split; [done|]. intros r Hin. cbn [written calls] in *.
    apply in_app_or in Hin as [Hin|[<-|[]]]; [by apply Hacc|by left].
  - rewrite body_scorable in Hb by done. cbv zeta in Hb.
    match type of Hb with
    | (if _ then _ ?st1 else _) = _ => assert (accounted engine src st1) as H1
    end.
    { split; [|done]. intros r Hin. cbn [buf_rows] in Hin.
      apply in_app_or in Hin as [Hin|[<-|[]]]; [by apply Hbuf|done]. }
    destruct (_ <=? _)%Z.
    + eapply flush_accounted; [exact H1|exact Hb].
    + by injection Hb as <-.
Qed.

Lemma loop_accounted src rows st st' :
  (forall r, In r rows -> In r src) ->
  accounted engine src st -> loop st rows = Some st' -> accounted engine src st'.
Proof.
  revert st. induction rows as [|row rest IH]; intros st Hsrc Hacc Hl;
    simpl in Hl.
  - by injection Hl as <-.
  - destruct (cap_reached max_rows st); [by injection Hl as <-|].
    destruct (body st row) as [st1|] eqn:Hb; [|done].
    cbn [mbind option_bind] in Hl. apply (IH st1); [| |exact Hl].
    + intros r Hr. apply Hsrc. by right.
    + eapply body_accounted; [|exact Hacc|exact Hb]. apply Hsrc. by left.
Qed.

Lemma run_accounted rows st :
  run rows = Some st -> accounted engine rows st.
Proof.
  unfold Enrich.run. intros H.
  destruct (Enrich.loop engine batch_size max_rows init rows) as [st1|] eqn:Hl;
    [|done].
  cbn [mbind option_bind] in H. eapply flush_accounted; [|exact H].
  apply (loop_accounted rows rows init); [done| |exact Hl].
  split; by intros row [].
Qed.

(** *** The engine is never given a blank query or text *)

Lemma flush_nonblank st st' :
  nonblank_inputs st -> flush st = Some st' -> nonblank_inputs st'.
Proof.
  intros [Hbuf Hcalls] Hf.
  destruct (flush_cases st st' Hf) as [[_ ->]|(scores & _ & _ & ->)]; [done|].
  split; [done|]. cbn [calls]. apply Forall_app. split; [done|].
  by constructor.
Qed.

Lemma body_nonblank st row st' :
  nonblank_inputs st -> body st row = Some st' -> nonblank_inputs st'.
Proof.
  intros [Hbuf Hcalls] Hb. destruct (blank row) eqn:Hbl.
  - rewrite body_blank in Hb by done. by injection Hb as <-.
  - rewrite body_scorable in Hb by done. cbv zeta in Hb.
    match type of Hb with
    | (if _ then _ ?st1 else _) = _ => assert (nonblank_inputs st1) as H1
    end.
    { split; [|done]. cbn [buf_q buf_t].
      apply orb_false_iff in Hbl as [Hq Ht].
      apply PyStrFacts.is_empty_false in Hq, Ht.
      apply Forall_app in Hbuf as [Hq' Ht'].
      repeat (apply Forall_app; split); try done; by constructor. }
    destruct (_ <=? _)%Z.
    + eapply flush_nonblank; [exact H1|exact Hb].
    + by injection Hb as <-.
Qed.

Lemma loop_nonblank rows st st' :
  nonblank_inputs st -> loop st rows = Some st' -> nonblank_inputs st'.
Proof.
  revert st. induction rows as [|row rest IH]; intros st Hnb Hl; simpl in Hl.
  - by injection Hl as <-.
  - destruct (cap_reached max_rows st); [by injection Hl as <-|].
    destruct (body st row) as [st1|] eqn:Hb; [|done].
    cbn [mbind option_bind] in Hl. apply (IH st1); [|exact Hl].
    by eapply body_nonblank.
Qed.

(** In a whole run, every query and every text of every engine
    invocation is not empty: no blank row reaches the engine. *)
Lemma run_nonblank rows st qs ts :
  run rows = Some st -> In (qs, ts) (calls st) ->
  Forall (fun q => q <> EmptyString) qs /\ Forall (fun t => t <> EmptyString) ts.
Proof.
  unfold Enrich.run. intros H Hin.
  destruct (Enrich.loop engine batch_size max_rows init rows) as [st1|] eqn:Hl;
    [|done].
  cbn [mbind option_bind] in H.
  assert (nonblank_inputs st) as [_ Hcalls].
  { eapply flush_nonblank; [|exact H]. eapply loop_nonblank; [|exact Hl].
    split; constructor. }
  rewrite List.Forall_forall in Hcalls. specialize (Hcalls _ Hin).
  by apply Forall_app in Hcalls.
Qed.

End Job.

Lemma reasons_annotate row s :
  get_or_empty (annotate row s) "reasons"
  = rewrite_reasons (get_or_empty row "reasons") s.
Proof. unfold get_or_empty at 1, annotate. by rewrite lookup_insert_eq. Qed.

(** Scoring a scored row again is scoring the first row once. *)
Lemma annotate_annotate row s1 s2 :
  annotate (annotate row s1) s2 = annotate row s2.
Proof.
  unfold annotate at 1. rewrite reasons_annotate.
  rewrite ReasonsFacts.rewrite_reasons_replace.
  unfold annotate. by rewrite insert_insert_eq.
Qed.

Lemma blank_annotate row s : blank (annotate row s) = blank row.
Proof.
  unfold blank, query_of, text_of, get_or_empty, annotate.
  by rewrite !lookup_insert_ne.
Qed.

(** Only the annotation column of a scored row changes. *)
Lemma annotate_other row s (column : string) :
  column <> "reasons"%string -> annotate row s !! column = row !! column.
Proof. intros Hne. unfold annotate. by rewrite lookup_insert_ne. Qed.

(** *** The rows written only grow, and [total] counts them *)

Section Counting.
Variable engine : list string -> list string -> option (list pyfloat).
Variable batch_size : Z.
Variable max_rows : Z.

Lemma flush_counted st st' :
  total st = Z.of_nat (length (written st)) ->
  flush engine st = Some st' ->
  total st' = Z.of_nat (length (written st')).
Proof.
  intros Hc Hf. apply flush_cases in Hf as [[_ ->]|(scores & _ & _ & ->)];
    [done|].
  cbn [total written]. rewrite length_app, length_map. lia.
Qed.

Lemma body_counted st row st' :
  total st = Z.of_nat (length (written st)) ->
  body engine batch_size st row = Some st' ->
  total st' = Z.of_nat (length (written st')).
Proof.
  intros Hc Hb. destruct (blank row) eqn:Hbl.
  - rewrite body_blank in Hb by done. injection Hb as <-.
    cbn [total written]. rewrite length_app. simpl. lia.
  - rewrite body_scorable in Hb by done. cbv zeta in Hb.
    destruct (_ <=? _)%Z; [by eapply flush_counted; [|exact Hb]|].
    by injection Hb as <-.
Qed.

Lemma loop_counted rows st st' :
  total st = Z.of_nat (length (written st)) ->
  loop engine batch_size max_rows st rows = Some st' ->
  total st' = Z.of_nat (length (written st')).
Proof.
  revert st. induction rows as [|row rest IH]; intros st Hc Hl; simpl in Hl.
  - by injection Hl as <-.
  - destruct (cap_reached max_rows st); [by injection Hl as <-|].
    destruct (body engine batch_size st row) as [st1|] eqn:Hb; [|done].
    cbn [mbind option_bind] in Hl. apply (IH st1); [|exact Hl].
    by eapply body_counted.
Qed.

Lemma run_counted rows st :
  run engine batch_size max_rows rows = Some st ->
  total st = Z.of_nat (length (written st)).
Proof.
  unfold run. intros H.
  destruct (loop engine batch_size max_rows init rows) as [st1|] eqn:Hl; [|done].
  cbn [mbind option_bind] in H. eapply flush_counted; [|exact H].
  by eapply loop_counted; [|exact Hl].
Qed.

End Counting.

Section Growth.
Variable engine : list string -> list string -> option (list pyfloat).
Variable batch_size : Z.
Variable max_rows : Z.

Lemma flush_written_grows st st' :
  flush engine st = Some st' -> exists more, written st' = written st ++ more.
Proof.
  intros Hf. apply flush_cases in Hf as [[_ ->]|(scores & _ & _ & ->)].
  - exists []. by rewrite app_nil_r.
  - by eexists.
Qed.

Lemma body_written_grows st row st' :
  body engine batch_size st row = Some st' ->
  exists more, written st' = written st ++ more.
Proof.
  intros Hb. destruct (blank row) eqn:Hbl.
  - rewrite body_blank in Hb by done. injection Hb as <-. by eexists.
  - rewrite body_scorable in Hb by done. cbv zeta in Hb.
    destruct (_ <=? _)%Z.
    + by apply flush_written_grows in Hb.
    + injection Hb as <-. exists []. by rewrite app_nil_r.
Qed.

Lemma loop_written_grows rows st st' :
  loop engine batch_size max_rows st rows = Some st' ->
  exists more, written st' = written st ++ more.
Proof.
  revert st. induction rows as [|row rest IH]; intros st Hl; simpl in Hl.
  - injection Hl as <-. exists []. by rewrite app_nil_r.
  - destruct (cap_reached max_rows st).
    { injection Hl as <-. exists []. by rewrite app_nil_r. }
    destruct (body engine batch_size st row) as [st1|] eqn:Hb; [|done].
    cbn [mbind option_bind] in Hl.
    destruct (body_written_grows _ _ _ Hb) as [m1 H1].
    destruct (IH st1 Hl) as [m2 H2].
    exists (m1 ++ m2). by rewrite H2, H1, app_assoc.
Qed.

(** The loop over [before ++ rest], when it gets through [before]
    without reaching the cap, goes on with [rest]. *)
Lemma loop_app before rest st st0 :
  loop engine batch_size max_rows st before = Some st0 ->
  cap_reached max_rows st0 = false ->
  loop engine batch_size max_rows st (before ++ rest)
  = loop engine batch_size max_rows st0 rest.
Proof.
  revert st. induction before as [|row before IH]; intros st Hl Hcap;
    simpl in Hl.
  - by injection Hl as <-.
  - cbn [app Enrich.loop]. destruct (cap_reached max_rows st) eqn:Hc.
    { injection Hl as <-. congruence. }
    destruct (body engine batch_size st row) as [st1|] eqn:Hb; [|done].
    cbn [mbind option_bind] in *. by apply IH.
Qed.

End Growth.

(** *** The pass-through rows keep their order *)

Section Order.
Variable engine : list string -> list string -> option (list pyfloat).
Variable batch_size : Z.

Lemma filter_blank_scored (l : list (Row * pyfloat)) :
  (forall r, In r (List.map fst l) -> blank r = false) ->
  List.filter blank (List.map (fun rs => annotate (fst rs) (snd rs)) l) = [].
Proof.
  induction l as [|[r s] l IH]; intros Hl; simpl; [done|].
  rewrite blank_annotate, (Hl r) by (by left).
  apply IH. intros r' Hr'. apply Hl. by right.
Qed.

Lemma loop_blank_order rows st st' :
  (forall r, In r (buf_rows st) -> blank r = false) ->
  loop engine batch_size 0 st rows = Some st' ->
  (forall r, In r (buf_rows st') -> blank r = false)
  /\ List.filter blank (written st')
     = List.filter blank (written st) ++ List.filter blank rows.
Proof.
  revert st. induction rows as [|row rest IH]; intros st Hbuf Hl.
  - injection Hl as <-. by rewrite app_nil_r.
  - rewrite loop_cons in Hl by done.
    destruct (body engine batch_size st row) as [st1|] eqn:Hb; [|done].
    cbn [mbind option_bind] in Hl.
    assert ((forall r, In r (buf_rows st1) -> blank r = false)
            /\ List.filter blank (written st1)
               = List.filter blank (written st) ++ List.filter blank [row])
      as [Hbuf1 Hw1].
    { destruct (blank row) eqn:Hbl.
      - rewrite body_blank in Hb by done. injection Hb as <-.
        cbn [buf_rows written]. split; [done|].
        by rewrite List.filter_app.
      - rewrite body_scorable in Hb by done. cbv zeta in Hb.
        cbn [List.filter]. rewrite Hbl, app_nil_r.
        assert (forall r, In r (buf_rows st ++ [row]) -> blank r = false) as Hb1.
        { intros r [Hr|[<-|[]]]%in_app_or; [by apply Hbuf|done]. }
        destruct (_ <=? _)%Z.
        + apply flush_cases in Hb as [[_ ->]|(scores & _ & _ & ->)]; [done|].
          cbn [buf_rows written]. split; [by intros r []|].
          rewrite List.filter_app, filter_blank_scored, app_nil_r; [done|].
          intros r (rs & <- & Hin)%in_map_iff. destruct rs as [r0 s0].
          apply in_zip_l in Hin as [Hin _]. by apply Hb1.
        + by injection Hb as <-. }
    destruct (IH st1 Hbuf1 Hl) as [Hbuf' Hw']. split; [done|].
    rewrite Hw', Hw1, <- app_assoc. f_equal.
    cbn [List.filter]. by destruct (blank row).
Qed.

(** Without a cap, the pass-through rows of the output are the blank
    rows of the input, in the order of the input. *)
Lemma run_blank_order rows st :
  run engine batch_size 0 rows = Some st ->
  List.filter blank (written st) = List.filter blank rows.
Proof.
  unfold run. intros H.
  destruct (loop engine batch_size 0 init rows) as [st1|] eqn:Hl; [|done].
  cbn [mbind option_bind] in H.
  destruct (loop_blank_order rows init st1) as [Hbuf Hw]; [by intros r []|done|].
  apply flush_cases in H as [[_ ->]|(scores & _ & _ & ->)]; [done|].
  cbn [written]. rewrite List.filter_app, filter_blank_scored, app_nil_r; [done|].
  intros r (rs & <- & Hin)%in_map_iff. destruct rs as [r0 s0].
  apply in_zip_l in Hin as [Hin _]. by apply Hbuf.
Qed.

(** *** The scored rows keep their order *)

Section ScoredOrder.
Hypothesis engine_length :
  forall qs ts scores,
    length qs = length ts -> engine qs ts = Some scores ->
    length scores = length qs.

Lemma plain_annotate row s : plain (annotate row s) = plain row.
Proof. unfold plain, annotate. by rewrite delete_insert_eq. Qed.

Lemma plain_scored (l : list Row) (scores : list pyfloat) :
  length scores = length l ->
  (forall r, In r l -> blank r = false) ->
  List.map plain
    (List.filter scorable
       (List.map (fun rs => annotate (fst rs) (snd rs)) (zip l scores)))
  = List.map plain l.
Proof.
  revert scores. induction l as [|r l IH]; intros [|s scores] Hlen Hl;
    simpl in *; try done.
  unfold scorable at 1. rewrite blank_annotate, (Hl r) by (by left).
  cbn [negb List.map]. rewrite plain_annotate. f_equal.
  apply IH; [lia|]. intros r' Hr'. apply Hl. by right.
Qed.

Lemma flush_scored_order st st' :
  parallel st -> flush engine st = Some st' ->
  parallel st'
  /\ List.map plain (List.filter scorable (written st') ++ buf_rows st')
     = List.map plain (List.filter scorable (written st) ++ buf_rows st).
Proof.
  intros (Hq & Ht & Hnb) Hf.
  apply flush_cases in Hf as [[_ ->]|(scores & _ & He & ->)]; [done|].
  cbn [buf_rows buf_q buf_t written]. split; [by split; [|split; [|intros r []]]|].
  rewrite app_nil_r, List.filter_app, !List.map_app. f_equal.
  apply plain_scored; [|done].
  rewrite <- Hq. apply (engine_length _ (buf_t st)); [lia|done].
Qed.

Lemma loop_scored_order rows st st' :
  parallel st ->
  loop engine batch_size 0 st rows = Some st' ->
  parallel st'
  /\ List.map plain (List.filter scorable (written st') ++ buf_rows st')
     = List.map plain (List.filter scorable (written st) ++ buf_rows st)
       ++ List.map plain (List.filter scorable rows).
Proof.
  revert st. induction rows as [|row rest IH]; intros st Hpar Hl.
  - injection Hl as <-. by rewrite app_nil_r.
  - rewrite loop_cons in Hl by done.
    destruct (body engine batch_size st row) as [st1|] eqn:Hb; [|done].
    cbn [mbind option_bind] in Hl.
    assert (parallel st1
            /\ List.map plain (List.filter scorable (written st1) ++ buf_rows st1)
               = List.map plain (List.filter scorable (written st) ++ buf_rows st)
                 ++ List.map plain (List.filter scorable [row]))
      as [Hpar1 Hw1].
    { destruct Hpar as (Hq & Ht & Hnb). destruct (blank row) eqn:Hbl.
      - rewrite body_blank in Hb by done. injection Hb as <-.
        cbn [buf_rows buf_q buf_t written]. split; [done|].
        assert (scorable row = false) as Hsc by (unfold scorable; by rewrite Hbl).
        rewrite List.filter_app. cbn [List.filter]. rewrite Hsc.
        by rewrite !app_nil_r.
      - rewrite body_scorable in Hb by done. cbv zeta in Hb.
        assert (scorable row = true) as Hsc by (unfold scorable; by rewrite Hbl).
        cbn [List.filter]. rewrite Hsc.
        match type of Hb with
        | (if _ then _ ?st2 else _) = _ =>
            assert (parallel st2) as Hpar2;
            [|assert (List.map plain
                        (List.filter scorable (written st2) ++ buf_rows st2)
                      = List.map plain
                          (List.filter scorable (written st) ++ buf_rows st)
                        ++ List.map plain [row]) as Hw2]
        end.
        { unfold parallel. cbn [buf_rows buf_q buf_t].
          rewrite !length_app. cbn [length].
          split; [lia|]. split; [lia|].
          intros r [Hr|[<-|[]]]%in_app_or; [by apply Hnb|done]. }
        { cbn [buf_rows written]. by rewrite !List.map_app, app_assoc. }
        destruct (_ <=? _)%Z.
        + destruct (flush_scored_order _ _ Hpar2 Hb) as [Hp Hw].
          split; [done|]. by rewrite Hw, Hw2.
        + injection Hb as <-. by split. }
    destruct (IH st1 Hpar1 Hl) as [Hpar' Hw']. split; [done|].
    rewrite Hw', Hw1, <- app_assoc, <- List.map_app. do 2 f_equal.
    cbn [List.filter]. by destruct (scorable row).
Qed.

(** Without a cap, and with an engine that returns one score per pair,
    the scored rows of the output are the rows of the input that can be
    scored, in the order of the input, up to their annotation. *)
Lemma run_scored_order rows st :
  run engine batch_size 0 rows = Some st ->
  List.map plain (List.filter scorable (written st))
  = List.map plain (List.filter scorable rows).
Proof.
  unfold run. intros H.
  destruct (loop engine batch_size 0 init rows) as [st1|] eqn:Hl; [|done].
  cbn [mbind option_bind] in H.
  destruct (loop_scored_order rows init st1) as [Hpar Hw];
    [by split; [|split; [|intros r []]]|done|].
  destruct (flush_scored_order _ _ Hpar H) as [(_ & _ & _) Hw2].
  assert (buf_rows st = []) as Hnil.
  { apply flush_cases in H as [[Hn ->]|(scores & _ & _ & ->)]; done. }
  rewrite Hnil, app_nil_r in Hw2. by rewrite Hw2, Hw.
Qed.

End ScoredOrder.
End Order.

End EnrichFacts.

(* ================================================================== *)
(** ** The enrichment job: statements of the specification *)
(* ================================================================== *)

Module EnrichProps.
Import PyStr Reasons Enrich Sample ListFacts EnrichFacts ReasonsFacts.

(** *** The cap bounds the rows written only up to a batch *)

Section Cap.
Variable engine : list string -> list string -> option (list pyfloat).
Variable batch_size : Z.
Variable max_rows : Z.
Hypothesis cap_set : (0 < max_rows)%Z.

#[local] Abbreviation capped := (capped batch_size max_rows).

Lemma body_capped st row st' :
  capped st -> cap_reached max_rows st = false ->
  body engine batch_size st row = Some st' -> capped st'.
Proof.
  unfold Enrich.capped, cap_reached. intros Hc Hcap Hb.
  assert (total st < max_rows)%Z as Hlt.
  { apply andb_false_iff in Hcap as [H|H].
    - apply negb_false_iff, Z.eqb_eq in H. lia.
    - apply Z.leb_gt in H. lia. }
  destruct (blank row) eqn:Hbl.
  - rewrite body_blank in Hb by done. injection Hb as <-. cbn [total buf_rows].
    destruct Hc as [[? ?]|[? Hnil]]; [left; lia|].
    left. rewrite Hnil. simpl. lia.
  - rewrite body_scorable in Hb by done. cbv zeta in Hb. cbn [buf_rows] in Hb.
    assert (Z.of_nat (length (buf_rows st)) <= Z.max batch_size 1 - 1)%Z as Hlen.
    { destruct Hc as [[? ?]|[? Hnil]]; [done|]. rewrite Hnil. simpl. lia. }
    rewrite length_app in Hb. simpl in Hb.
    destruct (batch_size <=? Z.of_nat (length (buf_rows st) + 1))%Z eqn:Hbs.
    + apply flush_cases in Hb as [[Hnil _]|(scores & _ & _ & ->)].
      * cbn [buf_rows] in Hnil. by destruct (buf_rows st).
      * right. cbn [total buf_rows buf_q buf_t]. split; [|done].
        pose proof (length_zip_le (buf_rows st ++ [row]) scores) as Hz.
        rewrite length_app in Hz. simpl in Hz. lia.
    + injection Hb as <-. cbn [total buf_rows]. left.
      apply Z.leb_gt in Hbs. rewrite length_app. simpl. lia.
Qed.

Lemma loop_capped rows st st' :
  capped st -> loop engine batch_size max_rows st rows = Some st' -> capped st'.
Proof.
  revert st. induction rows as [|row rest IH]; intros st Hc Hl; simpl in Hl.
  - by injection Hl as <-.
  - destruct (cap_reached max_rows st) eqn:Hcap; [by injection Hl as <-|].
    destruct (body engine batch_size st row) as [st1|] eqn:Hb; [|done].
    cbn [mbind option_bind] in Hl. eapply IH; [|exact Hl].
    by eapply body_capped.
Qed.

(** With a cap of [max_rows], up to [max(batch_size, 1) - 1] rows more
    than the cap are written. *)
Lemma run_capped rows st :
  run engine batch_size max_rows rows = Some st ->
  (total st <= max_rows + Z.max batch_size 1 - 1)%Z.
Proof.
  unfold Enrich.run. intros H.
  destruct (loop engine batch_size max_rows init rows) as [st1|] eqn:Hl; [|done].
  cbn [mbind option_bind] in H.
  assert (capped st1) as Hc.
  { eapply loop_capped; [|exact Hl]. left. simpl. lia. }
  unfold Enrich.capped in Hc.
  apply flush_cases in H as [[_ ->]|(scores & _ & _ & ->)].
  - destruct Hc as [[? ?]|[? ?]]; lia.
  - cbn [total]. pose proof (length_zip_le (buf_rows st1) scores) as Hz.
    destruct Hc as [[? ?]|[? Hnil]]; [lia|]. rewrite Hnil in *. simpl in *. lia.
Qed.

End Cap.

(** C1, at an input where it fails. Rows 1 and 3 can be scored and row 2
    has a blank gameName: with a batch size of 2, row 2 is written first,
    ahead of row 1, which waits in the buffer. *)
Theorem buffered_rows_are_overtaken :
  written <$> run (const_engine f0812) 2 0 [chess; nameless; go]
  = Some [nameless; annotate chess f0812; annotate go f0812].
Proof. vm_compute. reflexivity. Qed.

(** C2, at an input where it fails. With [--max-rows 1] and the default
    batch size of 64, three rows that can be scored are all read,
    scored and written: the cap is compared with the rows written so
    far, and buffered rows are not among them. *)
Theorem cap_ignores_buffered_rows :
  exists st,
    run (const_engine f0812) 64 1 [chess; go; hex] = Some st /\
    total st = 3%Z /\ length (written st) = 3 /\
    calls st = [(["Chess"; "Go"; "Hex"],
                 ["Chess Online"; "Go Online"; "Hex Deluxe"])].
Proof. eexists. vm_compute. repeat split. Qed.

(** C8. A row whose gameName or candidateTitle is blank once trimmed,
    which the loop meets before the cap is reached ([st0] is the state
    after the rows [before] it), is handed to the writer as it is, right
    after the rows written before it, and counted: in that turn of the
    loop [total] grows by one while the buffers and the engine
    invocations stay as they were; the row is in the output of the
    whole run, whose [total] is the number of rows written; and no
    engine invocation of the run holds the row's query and text. *)
Theorem blank_row_is_written_through
    engine batch_size max_rows before row after st0 st :
  strip (get_or_empty row "gameName") = EmptyString
  \/ strip (get_or_empty row "candidateTitle") = EmptyString ->
  loop engine batch_size max_rows init before = Some st0 ->
  cap_reached max_rows st0 = false ->
  run engine batch_size max_rows (before ++ row :: after) = Some st ->
  (exists later, written st = written st0 ++ row :: later)
  /\ body engine batch_size st0 row
     = Some (State (buf_rows st0) (buf_q st0) (buf_t st0) (total st0 + 1)
                   (written st0 ++ [row]) (calls st0))
  /\ total st = Z.of_nat (length (written st))
  /\ (forall qs ts,
        In (qs, ts) (calls st) ->
        ~ In (query_of row, text_of row) (zip qs ts)).
Proof.
  intros Hblank Hbefore Hcap Hrun.
  assert (blank row = true) as Hbl.
  { unfold blank, query_of, text_of.
    destruct Hblank as [-> | ->]; [done|]. apply orb_true_r. }
  split; [|split; [by apply body_blank|split]].
  - unfold run in Hrun.
    rewrite (loop_app _ _ _ _ _ _ _ Hbefore Hcap) in Hrun.
    rewrite loop_cons, body_blank in Hrun by done.
    cbn [mbind option_bind] in Hrun.
    destruct (loop engine batch_size max_rows _ after) as [st1|] eqn:Hl;
      [|done].
    cbn [mbind option_bind] in Hrun.
    destruct (loop_written_grows _ _ _ _ _ _ Hl) as [m1 H1].
    destruct (flush_written_grows _ _ _ Hrun) as [m2 H2].
    cbn [written] in H1. exists (m1 ++ m2).
    rewrite H2, H1, <- !app_assoc. done.
  - by eapply run_counted.
  - intros qs ts Hin Hpair.
    destruct (run_nonblank _ _ _ _ _ _ _ Hrun Hin) as [Hqs Hts].
    apply in_zip_l in Hpair as [Hq Ht].
    rewrite List.Forall_forall in Hqs, Hts.
    specialize (Hqs _ Hq). specialize (Hts _ Ht).
    unfold query_of, text_of in *. by destruct Hblank as [H|H].
Qed.

Lemma blank_row_is_written_through_witness :
  exists st,
    run (const_engine f0812) 2 0 ([chess] ++ nameless :: [go]) = Some st
    /\ (exists later, written st = [] ++ nameless :: later)
    /\ body (const_engine f0812) 2
         (State [chess] ["Chess"] ["Chess Online"] 0 [] []) nameless
       = Some (State [chess] ["Chess"] ["Chess Online"] (0 + 1)
                     ([] ++ [nameless]) [])
    /\ total st = Z.of_nat (length (written st))
    /\ (forall qs ts,
          In (qs, ts) (calls st) ->
          ~ In (query_of nameless, text_of nameless) (zip qs ts)).
Proof.
  eexists. split; [vm_compute; reflexivity|].
  apply (blank_row_is_written_through (const_engine f0812) 2 0
           [chess] nameless [go]
           (State [chess] ["Chess"] ["Chess Online"] 0 [] [])).
  - left. reflexivity.
  - reflexivity.
  - reflexivity.
  - vm_compute. reflexivity.
Defined.



(** C3. In the output of a second run of the job, made on the output of
    a first run, a row that can be scored is a row of the first input
    rewritten once, with a score [s] the engine returned in the second
    run: its annotation holds one clause matching the score pattern, the
    clause of [s], and the clause of the first run is gone. *)
Theorem rerun_replaces_score e1 bs1 mr1 e2 bs2 mr2 rows st1 st2 row :
  run e1 bs1 mr1 rows = Some st1 ->
  run e2 bs2 mr2 (written st1) = Some st2 ->
  In row (written st2) ->
  blank row = false ->
  exists s r0,
    (exists qs ts scores,
       In (qs, ts) (calls st2) /\ e2 qs ts = Some scores /\ In s scores)
    /\ In r0 rows /\ row = annotate r0 s
    /\ score_clauses (get_or_empty row "reasons") = [score_clause s].
Proof.
  intros H1 H2 Hin Hnb.
  destruct (run_accounted e2 bs2 mr2 _ _ H2) as [_ Hacc2].
  destruct (Hacc2 row Hin) as [[Hb _]|(s & r1 & qs & ts & scores & Hr1 & Hnb1 & Hc & He & Hs & ->)];
    [congruence|].
  destruct (run_accounted e1 bs1 mr1 _ _ H1) as [_ Hacc1].
  destruct (Hacc1 r1 Hr1) as [[Hb _]|(s1 & r0 & _ & _ & _ & Hr0 & _ & _ & _ & _ & ->)];
    [congruence|].
  exists s, r0. split; [by exists qs, ts, scores|]. split; [done|].
  rewrite annotate_annotate. split; [done|].
  by rewrite reasons_annotate, score_clauses_rewrite.
Qed.

Lemma rerun_replaces_score_witness :
  run (const_engine f0812) 64 0 [chess]
  = Some (State [] [] [] 1 [chess_0812] [(["Chess"], ["Chess Online"])])
  /\ run (const_engine f0900) 64 0 [chess_0812]
     = Some (State [] [] [] 1 [chess_0900] [(["Chess"], ["Chess Online"])])
  /\ exists s r0,
       (exists qs ts scores,
          In (qs, ts) [(["Chess"], ["Chess Online"])]
          /\ const_engine f0900 qs ts = Some scores /\ In s scores)
       /\ In r0 [chess] /\ chess_0900 = annotate r0 s
       /\ score_clauses (get_or_empty chess_0900 "reasons") = [score_clause s].
Proof.
  split; [vm_compute; reflexivity|]. split; [vm_compute; reflexivity|].
  apply (rerun_replaces_score (const_engine f0812) 64 0 (const_engine f0900) 64 0
           [chess]
           (State [] [] [] 1 [chess_0812] [(["Chess"], ["Chess Online"])])
           (State [] [] [] 1 [chess_0900] [(["Chess"], ["Chess Online"])])
           chess_0900).
  - vm_compute. reflexivity.
  - vm_compute. reflexivity.
  - left. reflexivity.
  - vm_compute. reflexivity.
Defined.

(** C7. With a batch size of 2 and no cap below 5, five rows that can be
    scored make three engine invocations, on rows 1-2, 3-4 and 5 (the
    last one from the flush after the loop), and five rows are written. *)
Theorem five_rows_in_batches_of_two engine max_rows rows :
  length rows = 5 ->
  Forall (fun r => blank r = false) rows ->
  max_rows = 0%Z \/ (5 <= max_rows)%Z ->
  (forall qs ts, length qs = length ts ->
     exists scores, engine qs ts = Some scores /\ length scores = length qs) ->
  exists st,
    run engine 2 max_rows rows = Some st
    /\ List.map (fun c => length (fst c)) (calls st) = [2; 2; 1]
    /\ List.map (fun c => length (snd c)) (calls st) = [2; 2; 1]
    /\ concat (List.map fst (calls st)) = List.map query_of rows
    /\ concat (List.map snd (calls st)) = List.map text_of rows
    /\ total st = 5%Z
    /\ length (written st) = 5.
Proof.
  intros Hlen Hrows Hcap Heng.
  destruct rows as [|r1 [|r2 [|r3 [|r4 [|r5 [|? ?]]]]]]; try discriminate.
  repeat match goal with
         | H : Forall _ (_ :: _) |- _ => inversion_clear H
         end.
  assert (forall st, (total st < 5)%Z -> cap_reached max_rows st = false) as Hfree.
  { intros st Hst. unfold cap_reached. destruct Hcap as [-> | Hcap]; [done|].
    apply andb_false_iff. right. apply Z.leb_gt. lia. }
  destruct (Heng [query_of r1; query_of r2] [text_of r1; text_of r2] eq_refl)
    as ([|a1 [|a2 [|? ?]]] & E1 & L1); try discriminate.
  destruct (Heng [query_of r3; query_of r4] [text_of r3; text_of r4] eq_refl)
    as ([|a3 [|a4 [|? ?]]] & E2 & L2); try discriminate.
  destruct (Heng [query_of r5] [text_of r5] eq_refl)
    as ([|a5 [|? ?]] & E3 & L3); try discriminate.
  eexists. split.
  - unfold run.
    rewrite loop_buffer by (try apply Hfree; try done; simpl; lia).
    cbn [buf_rows buf_q buf_t total written calls app].
    rewrite (loop_flush _ _ _ _ _ _ [a1; a2])
      by (try apply Hfree; try done; simpl; lia).
    cbn [buf_rows buf_q buf_t total written calls app zip zip_with length List.map fst snd].
    rewrite loop_buffer by (try apply Hfree; try done; simpl; lia).
    cbn [buf_rows buf_q buf_t total written calls app].
    rewrite (loop_flush _ _ _ _ _ _ [a3; a4])
      by (try apply Hfree; try done; simpl; lia).
    cbn [buf_rows buf_q buf_t total written calls app zip zip_with length List.map fst snd].
    rewrite loop_buffer by (try apply Hfree; try done; simpl; lia).
    cbn [buf_rows buf_q buf_t total written calls app Enrich.loop mbind option_bind].
    erewrite flush_scores; [reflexivity|done|exact E3].
  - cbn. repeat split.
Qed.

Lemma five_rows_in_batches_of_two_witness :
  exists st,
    run (const_engine f0812) 2 0 [chess; go; hex; chess; go] = Some st
    /\ List.map (fun c => length (fst c)) (calls st) = [2; 2; 1]
    /\ List.map (fun c => length (snd c)) (calls st) = [2; 2; 1]
    /\ concat (List.map fst (calls st))
       = List.map query_of [chess; go; hex; chess; go]
    /\ concat (List.map snd (calls st))
       = List.map text_of [chess; go; hex; chess; go]
    /\ total st = 5%Z
    /\ length (written st) = 5.
Proof.
  apply (five_rows_in_batches_of_two (const_engine f0812) 0
           [chess; go; hex; chess; go]).
  - reflexivity.
  - repeat constructor.
  - left. reflexivity.
  - intros qs ts _. exists (List.map (fun _ => f0812) qs).
    split; [reflexivity|apply length_map].
Defined.

End EnrichProps.

(* ================================================================== *)
(** ** Facts about tensors *)
(* ================================================================== *)

Module TorchFacts.
Import Torch.

Lemma map_fmap {A B} (f : A -> B) (l : list A) : List.map f l = f <$> l.
Proof. reflexivity. Qed.

Section Ops.
Context {F : Type}.
Variable sigmoid1 : F -> F.
Variable softmax1 : list F -> list F.

Lemma length_rows_of b c (d : list F) : length (rows_of b c d) = b.
Proof. unfold rows_of. by rewrite length_map, length_seq. Qed.

Lemma lookup_rows_of b c (d : list F) i :
  i < b -> rows_of b c d !! i = Some (take c (drop (i * c) d)).
Proof.
  intros Hi. unfold rows_of.
  by rewrite map_fmap, list_lookup_fmap, lookup_seq_lt.
Qed.

Lemma length_row b c (d : list F) i :
  length d = b * c -> i < b -> length (take c (drop (i * c) d)) = c.
Proof. intros Hd Hi. rewrite length_take, length_drop. nia. Qed.

(** A column of a well-formed matrix. *)
Lemma select_col_matrix k b c (t : tensor F) :
  shape t = [b; c] -> length (data t) = b * c -> k < c ->
  exists d,
    select_col k t = Some (Tensor [b] d) /\ length d = b /\
    forall i, i < b -> d !! i = flat_row c i t !! k.
Proof.
  intros Hs Hlen Hk. unfold select_col. rewrite Hs.
  destruct (Nat.ltb_spec k c); [|lia].
  destruct (mapM (fun row : list F => row !! k) (rows_of b c (data t)))
    as [d|] eqn:E.
  - exists d. split; [done|]. apply mapM_Some in E. split.
    + by rewrite <- (Forall2_length _ _ _ E), length_rows_of.
    + intros i Hi.
      destruct (Forall2_lookup_l _ _ _ i _ E (lookup_rows_of b c _ i Hi))
        as (y & Hy & Hxy).
      by rewrite Hy, <- Hxy.
  - exfalso. apply mapM_None, Exists_exists in E as (row & Hrow & Hnone).
    apply list_elem_of_lookup in Hrow as [i Hi].
    assert (i < b) as Hib.
    { apply lookup_lt_Some in Hi. by rewrite length_rows_of in Hi. }
    rewrite lookup_rows_of in Hi by done. injection Hi as <-.
    apply lookup_ge_None in Hnone.
    rewrite (length_row b) in Hnone by done. lia.
Qed.

Lemma row_of_concat c (L : list (list F)) i r :
  Forall (fun r => length r = c) L -> L !! i = Some r ->
  take c (drop (i * c) (concat L)) = r.
Proof.
  intros Hall. revert i.
  induction Hall as [|r0 L Hr0 _ IH]; intros i Hi; [done|].
  destruct i as [|i]; simpl in *.
  - injection Hi as ->. rewrite drop_0. by rewrite take_app_length'.
  - rewrite drop_app_ge, Hr0 by lia.
    replace (c + i * c - c) with (i * c) by lia. by apply IH.
Qed.

Lemma length_concat_rows c (L : list (list F)) :
  Forall (fun r => length r = c) L -> length (concat L) = length L * c.
Proof.
  induction 1 as [|r0 L Hr0 _ IH]; simpl; [done|].
  rewrite length_app, IH. lia.
Qed.

Section Softmax.
Hypothesis softmax_length : forall v, length (softmax1 v) = length v.

(** [softmax] along the rows of a well-formed matrix. *)
Lemma softmax_last_matrix b c (t : tensor F) :
  shape t = [b; c] -> length (data t) = b * c ->
  shape (softmax_last softmax1 t) = [b; c]
  /\ length (data (softmax_last softmax1 t)) = b * c
  /\ forall i, i < b ->
       flat_row c i (softmax_last softmax1 t) = softmax1 (flat_row c i t).
Proof.
  intros Hs Hlen. unfold softmax_last, flat_row. rewrite Hs.
  change (default 1 (last [b; c])) with c.
  change (numel (removelast [b; c])) with (b * 1).
  rewrite Nat.mul_1_r. cbn [shape data].
  set (L := List.map softmax1 (rows_of b c (data t))).
  assert (length L = b) as HL.
  { unfold L. by rewrite length_map, length_rows_of. }
  assert (Forall (fun r => length r = c) L) as Hall.
  { apply Forall_lookup. intros i r Hi. unfold L in Hi.
    rewrite map_fmap, list_lookup_fmap in Hi.
    destruct (decide (i < b)) as [Hib|Hib].
    - rewrite lookup_rows_of in Hi by done. injection Hi as <-.
      rewrite softmax_length. by apply (length_row b).
    - rewrite lookup_ge_None_2 in Hi; [done|]. rewrite length_rows_of. lia. }
  split; [done|]. split; [by rewrite (length_concat_rows c), HL|].
  intros i Hi. apply row_of_concat; [done|]. unfold L.
  by rewrite map_fmap, list_lookup_fmap, lookup_rows_of.
Qed.

End Softmax.
End Ops.
End TorchFacts.

(* ================================================================== *)
(** ** Facts about the two scoring functions *)
(* ================================================================== *)

Module EngineFacts.
Import Torch TorchFacts.

Section Engine.
Context {F Enc : Type}.
Variable sigmoid1 : F -> F.
Variable softmax1 : list F -> list F.
Variable to_device : string -> Enc -> option Enc.

#[local] Abbreviation normalize := (App.normalize sigmoid1 softmax1).

(** The two files hold the same branches, and the same function. *)
Lemma normalize_same logits :
  Enrich.normalize sigmoid1 softmax1 logits = normalize logits.
Proof. reflexivity. Qed.

Lemma score_pairs_same tok mdl dev ml qs ts :
  Enrich.score_pairs sigmoid1 softmax1 to_device tok mdl dev qs ts ml
  = App._score_pairs sigmoid1 softmax1 to_device
      (App.Globals (Some tok) (Some mdl) dev ml) qs ts.
Proof. reflexivity. Qed.

(** [_score_pairs] after a forward pass that gave [logits]. *)
Lemma _score_pairs_forward tok mdl dev ml qs ts enc enc' logits :
  tok qs ts ml = Some enc -> to_device dev enc = Some enc' ->
  mdl enc' = Some logits ->
  App._score_pairs sigmoid1 softmax1 to_device
    (App.Globals (Some tok) (Some mdl) dev ml) qs ts
  = tolist <$> normalize logits.
Proof.
  intros Ht Hd Hm. unfold App._score_pairs. cbn [App.tokenizer App.model
    App.MAX_LENGTH App.device]. rewrite Ht. cbn [mbind option_bind].
  rewrite Hd. cbn [mbind option_bind]. rewrite Hm. cbn [mbind option_bind].
  by destruct (normalize logits).
Qed.

(** Logits of shape [(b, 1)]. *)
Lemma normalize_single b (logits : tensor F) :
  shape logits = [b; 1] ->
  normalize logits = Some (Tensor [b] (List.map sigmoid1 (data logits))).
Proof.
  intros Hs. unfold App.normalize, dim, size_last, squeeze_last, sigmoid.
  rewrite Hs. cbn. by rewrite bool_decide_true.
Qed.

(** Logits of any shape that is neither [(b, 1)] nor [(b, 2)]. *)
Lemma normalize_fallback b rest (logits : tensor F) :
  wf logits -> shape logits = b :: rest -> rest <> [1] -> rest <> [2] ->
  0 < b -> 0 < numel rest ->
  exists d,
    normalize logits = Some (Tensor [b] (List.map sigmoid1 d))
    /\ length d = b
    /\ forall i, i < b -> d !! i = flat_row (numel rest) i logits !! 0.
Proof.
  intros Hwf Hs H1 H2 Hb Hc. unfold wf in Hwf. rewrite Hs in Hwf. cbn in Hwf.
  destruct (select_col_matrix 0 b (numel rest)
              (Tensor [b; numel rest] (data logits)))
    as (d & Hsel & Hlen & Hd); [done..|].
  exists d. split; [|by split].
  unfold App.normalize, dim, size_last, reshape_rows. rewrite Hs.
  assert ((length (b :: rest) =? 2) && bool_decide (last (b :: rest) = Some 1)
          = false) as ->.
  { destruct rest as [|x [|y rest]]; cbn; try done.
    apply bool_decide_false. intros [= ->]. done. }
  assert ((length (b :: rest) =? 2) && bool_decide (last (b :: rest) = Some 2)
          = false) as ->.
  { destruct rest as [|x [|y rest]]; cbn; try done.
    apply bool_decide_false. intros [= ->]. done. }
  destruct (Nat.eqb_spec b 0); [lia|]. cbn [mbind option_bind].
  by rewrite Hsel.
Qed.

Section Softmax.
Hypothesis softmax_length : forall v, length (softmax1 v) = length v.

(** Logits of shape [(b, 2)]. *)
Lemma normalize_binary b (logits : tensor F) :
  wf logits -> shape logits = [b; 2] ->
  exists d,
    normalize logits = Some (Tensor [b] d)
    /\ length d = b
    /\ forall i, i < b -> d !! i = softmax1 (flat_row 2 i logits) !! 1.
Proof.
  intros Hwf Hs. unfold wf in Hwf. rewrite Hs in Hwf. cbn in Hwf.
  destruct (softmax_last_matrix softmax1 softmax_length b 2 logits)
    as (Hs' & Hlen' & Hrow); [done|lia|].
  destruct (select_col_matrix 1 b 2 (softmax_last softmax1 logits))
    as (d & Hsel & Hlen & Hd); [done|done|lia|].
  exists d. split; [|split; [done|]].
  - unfold App.normalize, dim, size_last. rewrite Hs. cbn.
    by rewrite bool_decide_false, bool_decide_true.
  - intros i Hi. by rewrite Hd, Hrow.
Qed.

(** The scores of [normalize] are those the specification describes. *)
Lemma normalize_normalized (logits : tensor F) :
  wf logits ->
  normalized sigmoid1 softmax1 logits (tolist <$> normalize logits).
Proof.
  intros Hwf. split; [|split].
  - intros b Hs. by rewrite (normalize_single b).
  - intros b Hs.
    destruct (normalize_binary b logits Hwf Hs) as (d & -> & Hlen & Hd).
    by exists d.
  - intros b rest Hs H1 H2 Hb Hc.
    destruct (normalize_fallback b rest logits Hwf Hs H1 H2 Hb Hc)
      as (d & -> & Hlen & Hd).
    exists (List.map sigmoid1 d). split; [done|].
    split; [by rewrite length_map|].
    intros i Hi. by rewrite map_fmap, list_lookup_fmap, Hd.
Qed.

End Softmax.
End Engine.
End EngineFacts.

(* ================================================================== *)
(** ** Sigmoid and softmax on the reals stay in the unit interval *)
(* ================================================================== *)

Module RealFacts.
Import RealOps.

Lemma sigmoid1_unit x : (0 <= sigmoid1 x <= 1)%R.
Proof.
  unfold sigmoid1. pose proof (exp_pos (- x)) as Hpos.
  assert (0 < / (1 + exp (- x)))%R as H0 by (apply Rinv_0_lt_compat; lra).
  assert ((1 + exp (- x)) * / (1 + exp (- x)) = 1)%R as H1
    by (apply Rinv_r; lra).
  nra.
Qed.

Lemma sum_exp_nonneg v : (0 <= sum_exp v)%R.
Proof.
  unfold sum_exp. induction v as [|x v IH]; simpl; [lra|].
  pose proof (exp_pos x). lra.
Qed.

Lemma sum_exp_ge v x : In x v -> (exp x <= sum_exp v)%R.
Proof.
  unfold sum_exp. induction v as [|y v IH]; simpl; [done|].
  intros [->|Hin].
  - pose proof (sum_exp_nonneg v) as H. unfold sum_exp in H. lra.
  - specialize (IH Hin). pose proof (exp_pos y). lra.
Qed.

Lemma softmax1_length v : length (softmax1 v) = length v.
Proof. unfold softmax1. apply length_map. Qed.

Lemma softmax1_unit v y : In y (softmax1 v) -> (0 <= y <= 1)%R.
Proof.
  unfold softmax1. intros (x & <- & Hx)%in_map_iff.
  pose proof (sum_exp_ge v x Hx) as Hge. pose proof (exp_pos x) as Hpos.
  assert (0 < / sum_exp v)%R as H0 by (apply Rinv_0_lt_compat; lra).
  assert (sum_exp v * / sum_exp v = 1)%R as H1 by (apply Rinv_r; lra).
  unfold Rdiv. nra.
Qed.

End RealFacts.

(* ================================================================== *)
(** ** The scoring functions: statements of the specification *)
(* ================================================================== *)

Module EngineProps.
Import Torch ListFacts TorchFacts EngineFacts Sample.

(** C10. Called with the tokenizer, the model, the device and the
    maximum length that the service holds in its globals, the scoring
    function of the enrichment job returns what the scoring function of
    the service returns, on every pair of lists. *)
Theorem scoring_functions_agree {F Enc : Type}
    (sigmoid1 : F -> F) (softmax1 : list F -> list F)
    (to_device : string -> Enc -> option Enc)
    tok mdl dev ml (queries texts : list string) :
  App._score_pairs sigmoid1 softmax1 to_device
    (App.Globals (Some tok) (Some mdl) dev ml) queries texts
  = Enrich.score_pairs sigmoid1 softmax1 to_device tok mdl dev queries texts ml.
Proof. symmetry. apply score_pairs_same. Qed.

(** C5. After a forward pass that gave well-formed [logits], both
    scoring functions return the scores the specification describes:
    for the shape [(b, 1)] the sigmoid of every value; for the shape
    [(b, 2)] the second component of the softmax of every row; for any
    other shape with rows that are not empty, the sigmoid of the first
    value of every flattened row. *)
Theorem scores_normalized_by_shape {F Enc : Type}
    (sigmoid1 : F -> F) (softmax1 : list F -> list F)
    (to_device : string -> Enc -> option Enc)
    tok mdl dev ml (queries texts : list string) enc enc' logits :
  tok queries texts ml = Some enc ->
  to_device dev enc = Some enc' ->
  mdl enc' = Some logits ->
  wf logits ->
  (forall v, length (softmax1 v) = length v) ->
  normalized sigmoid1 softmax1 logits
    (App._score_pairs sigmoid1 softmax1 to_device
       (App.Globals (Some tok) (Some mdl) dev ml) queries texts)
  /\ normalized sigmoid1 softmax1 logits
       (Enrich.score_pairs sigmoid1 softmax1 to_device tok mdl dev
          queries texts ml).
Proof.
  intros Ht Hd Hm Hwf Hlen.
  rewrite score_pairs_same.
  rewrite (_score_pairs_forward _ _ _ _ _ _ _ _ _ _ _ _ Ht Hd Hm).
  split; by apply normalize_normalized.
Qed.

Lemma scores_normalized_by_shape_witness :
  normalized RealOps.sigmoid1 RealOps.softmax1
    (Tensor [2; 1] [0%R; 0%R])
    (App._score_pairs RealOps.sigmoid1 RealOps.softmax1 same_device
       (App.Globals (Some pair_tokenizer) (Some zero_model) "cpu" 256)
       ["Chess"; "Go"] ["Chess Online"; "Go Online"])
  /\ normalized RealOps.sigmoid1 RealOps.softmax1
       (Tensor [2; 1] [0%R; 0%R])
       (Enrich.score_pairs RealOps.sigmoid1 RealOps.softmax1 same_device
          pair_tokenizer zero_model "cpu"
          ["Chess"; "Go"] ["Chess Online"; "Go Online"] 256).
Proof.
  apply (scores_normalized_by_shape RealOps.sigmoid1 RealOps.softmax1
           same_device pair_tokenizer zero_model "cpu" 256%Z
           ["Chess"; "Go"] ["Chess Online"; "Go Online"]
           [("Chess", "Chess Online"); ("Go", "Go Online")]
           [("Chess", "Chess Online"); ("Go", "Go Online")]
           (Tensor [2; 1] [0%R; 0%R])).
  - reflexivity.
  - reflexivity.
  - reflexivity.
  - reflexivity.
  - apply RealFacts.softmax1_length.
Defined.

Lemma lookup_flat_row_single {F} (t : tensor F) i :
  flat_row 1 i t !! 0 = data t !! i.
Proof.
  unfold flat_row. rewrite lookup_take_lt, lookup_drop by lia.
  f_equal. lia.
Qed.

(** C6. For queries and texts of one length [n], after a forward pass
    that gave well-formed logits with [n] rows that are not empty, the
    service's scoring function returns [n] scores; every score lies in
    [0, 1], given that sigmoid and softmax return values in [0, 1];
    and score [i] is computed from row [i] of the logits, the row of
    pair [i]. [val] is the real number a float stands for. *)
Theorem score_per_pair_in_unit_interval {F Enc : Type} (val : F -> R)
    (sigmoid1 : F -> F) (softmax1 : list F -> list F)
    (to_device : string -> Enc -> option Enc)
    tok mdl dev ml (queries texts : list string) enc enc' logits rest :
  length queries = length texts ->
  tok queries texts ml = Some enc ->
  to_device dev enc = Some enc' ->
  mdl enc' = Some logits ->
  wf logits ->
  shape logits = length queries :: rest ->
  0 < numel rest ->
  (length queries = 0 -> rest = [1] \/ rest = [2]) ->
  (forall x, (0 <= val (sigmoid1 x) <= 1)%R) ->
  (forall v, length (softmax1 v) = length v) ->
  (forall v y, In y (softmax1 v) -> (0 <= val y <= 1)%R) ->
  exists scores,
    App._score_pairs sigmoid1 softmax1 to_device
      (App.Globals (Some tok) (Some mdl) dev ml) queries texts = Some scores
    /\ length scores = length queries
    /\ (forall s, In s scores -> (0 <= val s <= 1)%R)
    /\ (forall i, i < length queries ->
          scores !! i = sigmoid1 <$> flat_row (numel rest) i logits !! 0
          \/ scores !! i = softmax1 (flat_row (numel rest) i logits) !! 1).
Proof.
  intros _ Ht Hd Hm Hwf Hs Hc Hzero Hsig Hlen Hsoft.
  rewrite (_score_pairs_forward _ _ _ _ _ _ _ _ _ _ _ _ Ht Hd Hm).
  set (n := length queries) in *.
  destruct (decide (rest = [1])) as [->|H1];
    [|destruct (decide (rest = [2])) as [->|H2]].
  - rewrite (normalize_single _ _ n) by done.
    exists (List.map sigmoid1 (data logits)). split; [done|].
    unfold wf in Hwf. rewrite Hs in Hwf. cbn in Hwf.
    split; [rewrite length_map; lia|]. split.
    + intros s (x & <- & _)%in_map_iff. apply Hsig.
    + intros i _. left.
      by rewrite map_fmap, list_lookup_fmap, lookup_flat_row_single.
  - destruct (normalize_binary sigmoid1 softmax1 Hlen n logits Hwf Hs)
      as (d & -> & Hd' & Hrow).
    exists d. split; [done|]. split; [done|]. split.
    + intros s Hin. apply list_elem_of_In, list_elem_of_lookup in Hin as [i Hi].
      assert (i < n) as Hin by (apply lookup_lt_Some in Hi; lia).
      rewrite Hrow in Hi by done.
      apply (Hsoft (flat_row 2 i logits)).
      apply list_elem_of_In, list_elem_of_lookup. by exists 1.
    + intros i Hi. right. by apply Hrow.
  - assert (0 < n) as Hn by (destruct (decide (n = 0)); [tauto|lia]).
    destruct (normalize_fallback sigmoid1 softmax1 n rest logits
                Hwf Hs H1 H2 Hn Hc) as (d & -> & Hd' & Hrow).
    exists (List.map sigmoid1 d). split; [done|].
    split; [by rewrite length_map|]. split.
    + intros s (x & <- & _)%in_map_iff. apply Hsig.
    + intros i Hi. left. by rewrite map_fmap, list_lookup_fmap, Hrow.
Qed.

Lemma score_per_pair_in_unit_interval_witness :
  exists scores,
    App._score_pairs RealOps.sigmoid1 RealOps.softmax1 same_device
      (App.Globals (Some pair_tokenizer) (Some zero_model) "cpu" 256)
      ["Chess"; "Go"] ["Chess Online"; "Go Online"] = Some scores
    /\ length scores = 2
    /\ (forall s, In s scores -> (0 <= s <= 1)%R)
    /\ (forall i, i < 2 ->
          scores !! i
          = RealOps.sigmoid1 <$> flat_row 1 i (Tensor [2; 1] [0%R; 0%R]) !! 0
          \/ scores !! i
             = RealOps.softmax1 (flat_row 1 i (Tensor [2; 1] [0%R; 0%R])) !! 1).
Proof.
  apply (score_per_pair_in_unit_interval (fun x : R => x)
           RealOps.sigmoid1 RealOps.softmax1
           same_device pair_tokenizer zero_model "cpu" 256%Z
           ["Chess"; "Go"] ["Chess Online"; "Go Online"]
           [("Chess", "Chess Online"); ("Go", "Go Online")]
           [("Chess", "Chess Online"); ("Go", "Go Online")]
           (Tensor [2; 1] [0%R; 0%R]) [1]).
  - reflexivity.
  - reflexivity.
  - reflexivity.
  - reflexivity.
  - reflexivity.
  - reflexivity.
  - simpl. lia.
  - discriminate.
  - apply RealFacts.sigmoid1_unit.
  - apply RealFacts.softmax1_length.
  - apply RealFacts.softmax1_unit.
Defined.

Lemma fold_left_entries {F} (l : list (App.BatchPair * F)) acc :
  fold_left (fun out ps => out ++ [App.Entry (App.id (fst ps)) (snd ps)]) l acc
  = acc ++ List.map (fun ps => App.Entry (App.id (fst ps)) (snd ps)) l.
Proof.
  revert acc. induction l as [|ps l IH]; intros acc; simpl.
  - by rewrite app_nil_r.
  - by rewrite IH, <- app_assoc.
Qed.

(** C9. [batch_score] on no pairs answers with no scores and does not
    invoke [_score_pairs]; on a list of pairs that is not empty it
    invokes [_score_pairs] once, on all the queries and all the texts,
    and, when that returns one score per pair, answers with one entry
    per pair, in order, holding the pair's id and its score. *)
Theorem batch_score_entries {F Enc : Type}
    (sigmoid1 : F -> F) (softmax1 : list F -> list F)
    (to_device : string -> Enc -> option Enc) (g : App.globals) :
  App.batch_score sigmoid1 softmax1 to_device g [] = ([], Some [])
  /\ forall pairs scores,
       pairs <> [] ->
       App._score_pairs sigmoid1 softmax1 to_device g
         (List.map App.query pairs) (List.map App.text pairs) = Some scores ->
       length scores = length pairs ->
       exists out,
         App.batch_score sigmoid1 softmax1 to_device g pairs
         = ([(List.map App.query pairs, List.map App.text pairs)], Some out)
         /\ length out = length pairs
         /\ forall i p, pairs !! i = Some p ->
              exists s, scores !! i = Some s
                        /\ out !! i = Some (App.Entry (App.id p) s).
Proof.
  split; [done|]. intros pairs scores Hne He Hlen.
  exists (zip_with (fun p s => App.Entry (App.id p) s) pairs scores).
  split; [|split].
  - unfold App.batch_score. destruct pairs as [|p pairs]; [done|].
    rewrite He. cbn [mbind option_bind]. rewrite fold_left_entries.
    cbn [app]. do 3 f_equal.
    apply (map_zip_with (fun p s => App.Entry (App.id p) s)).
  - rewrite length_zip_with. lia.
  - intros i p Hp.
    destruct (lookup_lt_is_Some_2 scores i) as [s Hs].
    { apply lookup_lt_Some in Hp. lia. }
    exists s. split; [done|]. rewrite lookup_zip_with, Hp. cbn. by rewrite Hs.
Qed.

Lemma batch_score_entries_witness :
  exists out,
    App.batch_score RealOps.sigmoid1 RealOps.softmax1 same_device
      (App.Globals (Some pair_tokenizer) (Some zero_model) "cpu" 256)
      [App.Pair "Chess" "Chess Online" (Some "a"); App.Pair "Go" "Go Online" None]
    = ([(["Chess"; "Go"], ["Chess Online"; "Go Online"])], Some out)
    /\ length out = 2
    /\ forall i p,
         [App.Pair "Chess" "Chess Online" (Some "a");
          App.Pair "Go" "Go Online" None] !! i = Some p ->
         exists s,
           [RealOps.sigmoid1 0; RealOps.sigmoid1 0] !! i = Some s
           /\ out !! i = Some (App.Entry (App.id p) s).
Proof.
  apply (proj2 (batch_score_entries RealOps.sigmoid1 RealOps.softmax1 same_device
                  (App.Globals (Some pair_tokenizer) (Some zero_model) "cpu" 256))
           [App.Pair "Chess" "Chess Online" (Some "a"); App.Pair "Go" "Go Online" None]
           [RealOps.sigmoid1 0; RealOps.sigmoid1 0]).
  - discriminate.
  - reflexivity.
  - reflexivity.
Defined.

End EngineProps.

(* ================================================================== *)
(** ** Device resolution *)
(* ================================================================== *)

Module DeviceProps.
Import PyStr App.

Lemma lower_char_idem c : lower_char (lower_char c) = lower_char c.
Proof. by destruct c as [[] [] [] [] [] [] [] []]. Qed.

Lemma lower_idem s : lower (lower s) = lower s.
Proof.
  induction s as [|c r IH]; simpl; [done|]. by rewrite lower_char_idem, IH.
Qed.

Lemma is_empty_lower s : is_empty (lower s) = is_empty s.
Proof. by destruct s. Qed.

Lemma known_device (d : string) :
  d ∈ ["cpu"; "cuda"; "mps"]%string ->
  d = "cpu"%string \/ d = "cuda"%string \/ d = "mps"%string.
Proof.
  intros H. repeat (apply elem_of_cons in H as [->|H]; [tauto|]).
  by apply elem_of_nil in H.
Qed.

Lemma app_pick_device_usable c m d : usable c m (App.pick_device c m d).
Proof.
  unfold App.pick_device, usable. case_bool_decide as Hd.
  - destruct (known_device d Hd) as [->| [->| ->]]; destruct c, m; cbn; tauto.
  - destruct c, m; tauto.
Qed.

(** X1. Whatever [--device] holds and whatever hardware there is, the
    device the job picks is "cpu", or "cuda" with CUDA available, or
    "mps" with MPS available: never an accelerator that is missing. *)
Theorem job_device_is_usable (cuda_available mps_available : bool)
    (device : string) :
  usable cuda_available mps_available
    (Enrich.pick_device cuda_available mps_available device).
Proof.
  unfold Enrich.pick_device, usable. cbv zeta. case_bool_decide as Hd.
  - destruct (known_device _ Hd) as [->| [->| ->]];
      destruct cuda_available, mps_available; cbn; tauto.
  - destruct cuda_available, mps_available; tauto.
Qed.

(** X2. The device of the service, resolved from RERANKER_DEVICE when the
    module is imported, is the device the job resolves when [--device]
    holds the same value ("auto" when the variable is not set): the two
    copies of [pick_device] agree, also on the empty string. *)
Theorem service_and_job_pick_the_same_device
    (cuda_available mps_available : bool) (env : option string) :
  App.pick_device cuda_available mps_available (App.DEVICE env)
  = Enrich.pick_device cuda_available mps_available
      (default "auto"%string env).
Proof.
  unfold Enrich.pick_device, App.DEVICE. cbv zeta.
  destruct env as [[|c d]|]; [|done..].
  by destruct cuda_available, mps_available.
Qed.

(** X3. The preference is read without regard to case: two values of
    [--device] with the same lower-case form resolve to the same device. *)
Theorem device_preference_ignores_case
    (cuda_available mps_available : bool) (d1 d2 : string) :
  lower d1 = lower d2 ->
  Enrich.pick_device cuda_available mps_available d1
  = Enrich.pick_device cuda_available mps_available d2.
Proof.
  intros H. unfold Enrich.pick_device.
  assert (is_empty d1 = is_empty d2) as He
    by (by rewrite <- (is_empty_lower d1), H, is_empty_lower).
  rewrite He. destruct (is_empty d2); [done|]. by rewrite H.
Qed.

Lemma device_preference_ignores_case_witness :
  lower "CUDA" = lower "cuda"
  /\ Enrich.pick_device true false "CUDA" = Enrich.pick_device true false "cuda"
  /\ Enrich.pick_device true false "CUDA" = "cuda"%string.
Proof.
  split; [reflexivity|]. split; [|reflexivity].
  apply (device_preference_ignores_case true false "CUDA" "cuda"). reflexivity.
Defined.

(** X4. A preference that is not cpu, cuda or mps in any case, the empty
    string among them, is taken as "auto": cuda when it is available,
    else mps when it is available, else cpu. No preference is an error. *)
Theorem unknown_device_means_auto
    (cuda_available mps_available : bool) (device : string) :
  lower device ∉ ["cpu"; "cuda"; "mps"]%string ->
  Enrich.pick_device cuda_available mps_available device
  = if cuda_available then "cuda"%string
    else if mps_available then "mps"%string else "cpu"%string.
Proof.
  intros H. unfold Enrich.pick_device. cbv zeta.
  destruct device as [|c d]; [done|]. cbn [is_empty].
  by rewrite bool_decide_false.
Qed.

Lemma unknown_device_means_auto_witness :
  (lower "GPU" ∉ ["cpu"; "cuda"; "mps"]%string)
  /\ Enrich.pick_device false true "GPU" = "mps"%string.
Proof.
  assert (lower "GPU" ∉ ["cpu"; "cuda"; "mps"]%string) as H.
  { intros Hin. by destruct (known_device _ Hin) as [?|[?|?]]. }
  split; [exact H|].
  apply (unknown_device_means_auto false true "GPU" H).
Defined.

(** X5. The device the service holds, which [/health] reports and
    [_score_pairs] moves every batch to, is usable whatever
    RERANKER_DEVICE holds, and [_load] does not change it. *)
Theorem service_device_is_usable {F Enc : Type}
    (cuda_available mps_available : bool) (env : option string)
    (max_length : Z) (tok : @App.Tokenizer Enc) (mdl : @App.Model F Enc)
    (MODEL_NAME : string) :
  usable cuda_available mps_available
    (App.health_device
       (App.health MODEL_NAME
          (App._load tok mdl
             (App.imported cuda_available mps_available env max_length))))
  /\ App.device
       (App._load tok mdl
          (App.imported cuda_available mps_available env max_length))
     = App.device
         (App.imported (F:=F) (Enc:=Enc)
            cuda_available mps_available env max_length).
Proof. split; [apply app_pick_device_usable|done]. Qed.

End DeviceProps.

(* ================================================================== *)
(** ** The enrichment job: what a run writes *)
(* ================================================================== *)

Module JobProps.
Import PyStr Reasons Enrich Sample ListFacts EnrichFacts.

Lemma const_engine_one_score s : one_score_per_pair (const_engine s).
Proof. intros qs ts scores _ [= <-]. apply length_map. Qed.

Lemma length_filter_blank (l : list Row) :
  length (List.filter blank l) + length (List.filter scorable l) = length l.
Proof.
  induction l as [|r l IH]; simpl; [done|]. unfold scorable at 1.
  destruct (blank r); simpl; lia.
Qed.

(** X6. The number [main] prints when it ends, [total], is the number of
    rows handed to the writer, for every engine, batch size, cap and
    input on which the run ends without an exception. *)
Theorem total_is_the_number_of_rows_written engine batch_size max_rows rows st :
  run engine batch_size max_rows rows = Some st ->
  total st = Z.of_nat (length (written st)).
Proof. apply run_counted. Qed.

Lemma total_is_the_number_of_rows_written_witness :
  exists st,
    run (const_engine f0812) 2 1 [chess; nameless; go; hex] = Some st
    /\ total st = Z.of_nat (length (written st)).
Proof.
  eexists. split; [vm_compute; reflexivity|].
  apply (total_is_the_number_of_rows_written (const_engine f0812) 2 1
           [chess; nameless; go; hex]).
  vm_compute. reflexivity.
Defined.

(** X7. With a cap [max_rows > 0], a run writes at most
    [max_rows + max(batch_size, 1) - 1] rows: the cap can be exceeded,
    but by less than one batch. *)
Theorem cap_is_exceeded_by_less_than_a_batch engine batch_size max_rows rows st :
  (0 < max_rows)%Z ->
  run engine batch_size max_rows rows = Some st ->
  (Z.of_nat (length (written st)) <= max_rows + Z.max batch_size 1 - 1)%Z.
Proof.
  intros Hcap Hrun. rewrite <- (run_counted _ _ _ _ _ Hrun).
  by eapply EnrichProps.run_capped.
Qed.

Lemma cap_is_exceeded_by_less_than_a_batch_witness :
  exists st,
    run (const_engine f0812) 3 1 [chess; go; hex; chess; go] = Some st
    /\ length (written st) = 3
    /\ (Z.of_nat (length (written st)) <= 1 + Z.max 3 1 - 1)%Z.
Proof.
  eexists. split; [vm_compute; reflexivity|]. split; [reflexivity|].
  apply (cap_is_exceeded_by_less_than_a_batch (const_engine f0812) 3 1
           [chess; go; hex; chess; go]); [lia|].
  vm_compute. reflexivity.
Defined.

(** X8. Without a cap, and with an engine that returns one score per
    pair, a run that ends writes as many rows as it read: no row is
    dropped and none is written twice. *)
Theorem every_row_is_written_once engine batch_size rows st :
  one_score_per_pair engine ->
  run engine batch_size 0 rows = Some st ->
  length (written st) = length rows /\ total st = Z.of_nat (length rows).
Proof.
  intros Heng Hrun.
  assert (length (written st) = length rows) as Hlen.
  { rewrite <- (length_filter_blank (written st)), <- (length_filter_blank rows).
    rewrite (run_blank_order _ _ _ _ Hrun). f_equal.
    rewrite <- (length_map plain), (run_scored_order _ _ Heng _ _ Hrun).
    apply length_map. }
  split; [done|]. by rewrite (run_counted _ _ _ _ _ Hrun), Hlen.
Qed.

Lemma every_row_is_written_once_witness :
  exists st,
    run (const_engine f0812) 2 0 [chess; nameless; go; hex] = Some st
    /\ length (written st) = length [chess; nameless; go; hex]
    /\ total st = Z.of_nat (length [chess; nameless; go; hex]).
Proof.
  eexists. split; [vm_compute; reflexivity|].
  apply (every_row_is_written_once (const_engine f0812) 2
           [chess; nameless; go; hex]).
  - apply const_engine_one_score.
  - vm_compute. reflexivity.
Defined.

(** X9. Every row a run writes is a row of the input with every column
    but "reasons" as it was: the job never makes up a row, never changes
    another column, and never turns a row that can be scored into a
    blank one or back. *)
Theorem written_rows_come_from_the_input engine batch_size max_rows rows st row :
  run engine batch_size max_rows rows = Some st ->
  In row (written st) ->
  exists r,
    In r rows /\ blank r = blank row /\
    forall column : string,
      column <> "reasons"%string -> row !! column = r !! column.
Proof.
  intros Hrun Hin.
  destruct (run_accounted _ _ _ _ _ Hrun) as [_ Hacc].
  destruct (Hacc row Hin) as [[_ Hsrc]|(s & r & _ & _ & _ & Hr & _ & _ & _ & _ & ->)].
  - by exists row.
  - exists r. split; [done|]. split; [by rewrite blank_annotate|].
    intros column Hne. by apply annotate_other.
Qed.

Lemma written_rows_come_from_the_input_witness :
  exists r,
    In r [chess; nameless]
    /\ blank r = blank chess_0812
    /\ forall column : string,
         column <> "reasons"%string -> chess_0812 !! column = r !! column.
Proof.
  apply (written_rows_come_from_the_input (const_engine f0812) 2 0
           [chess; nameless]
           (State [] [] [] 2 [nameless; chess_0812]
                  [(["Chess"], ["Chess Online"])])
           chess_0812).
  - vm_compute. reflexivity.
  - right. left. reflexivity.
Defined.

(** X10. Without a cap, and with an engine that returns one score per
    pair, the blank rows of the output are the blank rows of the input
    in their order, and the scored rows of the output are the rows of
    the input that can be scored, in their order, up to the annotation:
    a run may only change how the two kinds interleave. *)
Theorem each_kind_of_row_keeps_its_order engine batch_size rows st :
  one_score_per_pair engine ->
  run engine batch_size 0 rows = Some st ->
  List.filter blank (written st) = List.filter blank rows
  /\ List.map plain (List.filter scorable (written st))
     = List.map plain (List.filter scorable rows).
Proof.
  intros Heng Hrun. split.
  - by eapply run_blank_order.
  - by eapply run_scored_order.
Qed.

Lemma each_kind_of_row_keeps_its_order_witness :
  exists st,
    run (const_engine f0812) 2 0 [chess; nameless; go; hex] = Some st
    /\ List.filter blank (written st)
       = List.filter blank [chess; nameless; go; hex]
    /\ List.map plain (List.filter scorable (written st))
       = List.map plain (List.filter scorable [chess; nameless; go; hex]).
Proof.
  eexists. split; [vm_compute; reflexivity|].
  apply (each_kind_of_row_keeps_its_order (const_engine f0812) 2
           [chess; nameless; go; hex]).
  - apply const_engine_one_score.
  - vm_compute. reflexivity.
Defined.

(** X11. [flush] on a buffer that is not empty writes as many rows as
    the shorter of the buffer and the scores the engine returned, counts
    them, and empties the three buffers: when the engine returns fewer
    scores than pairs, the rows without a score are dropped without an
    error. *)
Theorem flush_writes_the_rows_that_got_a_score engine st scores :
  buf_rows st <> [] ->
  engine (buf_q st) (buf_t st) = Some scores ->
  exists st',
    flush engine st = Some st'
    /\ buf_rows st' = [] /\ buf_q st' = [] /\ buf_t st' = []
    /\ length (written st')
       = length (written st) + min (length (buf_rows st)) (length scores)
    /\ total st'
       = (total st + Z.of_nat (min (length (buf_rows st)) (length scores)))%Z.
Proof.
  intros Hne He. eexists. split; [by apply flush_scores|].
  cbn [buf_rows buf_q buf_t written total].
  rewrite length_app, length_map, length_zip. done.
Qed.

Lemma flush_writes_the_rows_that_got_a_score_witness :
  exists st',
    flush (single_score_engine f0812)
      (State [chess; go] ["Chess"; "Go"] ["Chess Online"; "Go Online"] 0 [] [])
    = Some st'
    /\ buf_rows st' = [] /\ buf_q st' = [] /\ buf_t st' = []
    /\ length (written st') = 0 + min 2 1
    /\ total st' = (0 + Z.of_nat (min 2 1))%Z.
Proof.
  apply (flush_writes_the_rows_that_got_a_score (single_score_engine f0812)
           (State [chess; go] ["Chess"; "Go"] ["Chess Online"; "Go Online"]
                  0 [] [])
           [f0812]).
  - discriminate.
  - reflexivity.
Defined.

(** X12. Scoring a row that was scored before gives the row that scoring
    the first row with the new score gives: the last score wins, and
    scoring twice with one score changes nothing the second time. *)
Theorem last_score_wins row s1 s2 :
  annotate (annotate row s1) s2 = annotate row s2.
Proof. apply annotate_annotate. Qed.

Section Unbuffered.
Variable engine : list string -> list string -> option (list pyfloat).
Variable batch_size : Z.
Hypothesis small_batch : (batch_size <= 1)%Z.
Hypothesis engine_length : one_score_per_pair engine.

Lemma loop_unbuffered rows st st' :
  buf_rows st = [] -> buf_q st = [] -> buf_t st = [] ->
  loop engine batch_size 0 st rows = Some st' ->
  (buf_rows st' = [] /\ buf_q st' = [] /\ buf_t st' = [])
  /\ List.map plain (written st')
     = List.map plain (written st) ++ List.map plain rows.
Proof.
  revert st. induction rows as [|row rest IH]; intros st Hr Hq Ht Hl.
  - injection Hl as <-. by rewrite app_nil_r.
  - rewrite loop_cons in Hl by done.
    destruct (body engine batch_size st row) as [st1|] eqn:Hb; [|done].
    cbn [mbind option_bind] in Hl.
    assert ((buf_rows st1 = [] /\ buf_q st1 = [] /\ buf_t st1 = [])
            /\ List.map plain (written st1)
               = List.map plain (written st) ++ [plain row]) as [(H1 & H2 & H3) Hw].
    { destruct (blank row) eqn:Hbl.
      - rewrite body_blank in Hb by done. injection Hb as <-.
        cbn [buf_rows buf_q buf_t written]. split; [done|].
        by rewrite List.map_app.
      - rewrite body_scorable in Hb by done. cbv zeta in Hb.
        rewrite Hr, Hq, Ht in Hb. cbn [app length buf_rows] in Hb.
        destruct (Z.leb_spec batch_size (Z.of_nat 1)); [|lia].
        apply flush_cases in Hb as [[Hnil _]|(scores & _ & He & ->)]; [done|].
        cbn [buf_rows buf_q buf_t written] in *. split; [done|].
        pose proof (engine_length [query_of row] [text_of row] scores eq_refl He)
          as Hlen.
        destruct scores as [|s [|? ?]]; try done.
        cbn [zip zip_with List.map fst snd].
        rewrite List.map_app. cbn [List.map]. by rewrite plain_annotate. }
    destruct (IH st1 H1 H2 H3 Hl) as [Hbuf Hw']. split; [done|].
    rewrite Hw', Hw, <- app_assoc. done.
Qed.

End Unbuffered.

(** X13. With a batch size of 1 or less, without a cap, and with an
    engine that returns one score per pair, the rows of the output are
    the rows of the input in the order of the input, up to the
    annotation: every row is written before the next one is read. *)
Theorem batch_size_one_keeps_the_input_order engine batch_size rows st :
  (batch_size <= 1)%Z ->
  one_score_per_pair engine ->
  run engine batch_size 0 rows = Some st ->
  List.map plain (written st) = List.map plain rows.
Proof.
  intros Hbs Heng Hrun. unfold run in Hrun.
  destruct (loop engine batch_size 0 init rows) as [st1|] eqn:Hl; [|done].
  cbn [mbind option_bind] in Hrun.
  destruct (loop_unbuffered engine batch_size Hbs Heng rows init st1)
    as [(H1 & _ & _) Hw]; [done..|].
  rewrite flush_empty in Hrun by done. by injection Hrun as <-.
Qed.

Lemma batch_size_one_keeps_the_input_order_witness :
  exists st,
    run (const_engine f0812) 1 0 [chess; nameless; go] = Some st
    /\ List.map plain (written st) = List.map plain [chess; nameless; go].
Proof.
  eexists. split; [vm_compute; reflexivity|].
  apply (batch_size_one_keeps_the_input_order (const_engine f0812) 1
           [chess; nameless; go]).
  - lia.
  - apply const_engine_one_score.
  - vm_compute. reflexivity.
Defined.

Section Batches.
Variable engine : list string -> list string -> option (list pyfloat).
Variable b : nat.
Hypothesis batch_positive : 0 < b.

#[local] Abbreviation sizes :=
  (List.map (fun c : call => length (fst c))).

Lemma loop_batches rows st st' q :
  parallel st -> length (buf_rows st) < b ->
  sizes (calls st) = replicate q b ->
  loop engine (Z.of_nat b) 0 st rows = Some st' ->
  parallel st' /\ length (buf_rows st') < b
  /\ exists q',
       sizes (calls st') = replicate q' b
       /\ q' * b + length (buf_rows st')
          = q * b + length (buf_rows st)
            + length (List.filter scorable rows).
Proof.
  revert st q. induction rows as [|row rest IH]; intros st q Hpar Hlt Hs Hl.
  - injection Hl as <-. split; [done|]. split; [done|]. exists q.
    split; [done|]. simpl. lia.
  - rewrite loop_cons in Hl by done.
    destruct (body engine (Z.of_nat b) st row) as [st1|] eqn:Hb; [|done].
    cbn [mbind option_bind] in Hl.
    assert (parallel st1 /\ length (buf_rows st1) < b
            /\ exists q1,
                 sizes (calls st1) = replicate q1 b
                 /\ q1 * b + length (buf_rows st1)
                    = q * b + length (buf_rows st)
                      + length (List.filter scorable [row]))
      as (Hpar1 & Hlt1 & q1 & Hs1 & Hq1).
    { destruct Hpar as (Hq & Ht & Hnb). destruct (blank row) eqn:Hbl.
      - rewrite body_blank in Hb by done. injection Hb as <-.
        cbn [buf_rows buf_q buf_t calls]. split; [done|]. split; [done|].
        exists q. split; [done|]. cbn [List.filter]. unfold scorable.
        rewrite Hbl. simpl. lia.
      - rewrite body_scorable in Hb by done. cbv zeta in Hb.
        cbn [buf_rows] in Hb. rewrite length_app in Hb. cbn [length] in Hb.
        assert (length (List.filter scorable [row]) = 1) as ->.
        { cbn [List.filter]. unfold scorable. by rewrite Hbl. }
        destruct (Z.leb_spec (Z.of_nat b) (Z.of_nat (length (buf_rows st) + 1))).
        + apply flush_cases in Hb as [[Hnil _]|(scores & _ & _ & ->)].
          { cbn [buf_rows] in Hnil. by destruct (buf_rows st). }
          cbn [buf_rows buf_q buf_t calls].
          split; [by split; [|split; [|intros r []]]|].
          split; [simpl; lia|]. exists (S q). split.
          * rewrite List.map_app, Hs, replicate_S_end. cbn [List.map fst].
            rewrite length_app. cbn [length]. do 2 f_equal. lia.
          * simpl. lia.
        + injection Hb as <-. unfold parallel.
          cbn [buf_rows buf_q buf_t calls].
          rewrite !length_app. cbn [length].
          split; [split; [lia|split; [lia|]]|].
          { intros r [Hr|[<-|[]]]%in_app_or; [by apply Hnb|done]. }
          split; [lia|]. exists q. split; [done|lia]. }
    destruct (IH st1 q1 Hpar1 Hlt1 Hs1 Hl) as (Hpar' & Hlt' & q' & Hs' & Hq').
    split; [done|]. split; [done|]. exists q'. split; [done|].
    rewrite Hq', Hq1. cbn [List.filter]. destruct (scorable row); simpl; lia.
Qed.

Lemma run_batches rows st :
  run engine (Z.of_nat b) 0 rows = Some st ->
  exists q r,
    length (List.filter scorable rows) = b * q + r /\ r < b
    /\ sizes (calls st) = replicate q b ++ (if r =? 0 then [] else [r]).
Proof.
  unfold run. intros H.
  destruct (loop engine (Z.of_nat b) 0 init rows) as [st1|] eqn:Hl; [|done].
  cbn [mbind option_bind] in H.
  destruct (loop_batches rows init st1 0) as ((Hq & _ & _) & Hlt & q & Hs & Hn);
    [by split; [|split; [|intros r []]]|done|done|done|].
  simpl in Hn. exists q, (length (buf_rows st1)).
  split; [lia|]. split; [done|].
  apply flush_cases in H as [[Hnil ->]|(scores & Hne & _ & ->)].
  - rewrite Hnil. simpl. by rewrite app_nil_r.
  - cbn [calls]. rewrite List.map_app, Hs. cbn [List.map fst]. rewrite Hq.
    destruct (Nat.eqb_spec (length (buf_rows st1)) 0) as [H0|_]; [|done].
    by destruct (buf_rows st1).
Qed.

End Batches.

(** X14. With a batch size [b >= 1] and no cap, a run over an input with
    [n] rows that can be scored invokes the engine on [n / b] batches
    of exactly [b] pairs, then on one batch of [n mod b] pairs when [b]
    does not divide [n], however the blank rows are spread among them. *)
Theorem batches_are_full_but_the_last engine (b : nat) rows st :
  0 < b ->
  run engine (Z.of_nat b) 0 rows = Some st ->
  List.map (fun c : call => length (fst c)) (calls st)
  = replicate (length (List.filter scorable rows) / b) b
    ++ (if length (List.filter scorable rows) mod b =? 0 then []
        else [length (List.filter scorable rows) mod b]).
Proof.
  intros Hb Hrun.
  destruct (run_batches engine b Hb rows st Hrun) as (q & r & Hn & Hr & Hs).
  rewrite Hs.
  rewrite <- (Nat.div_unique _ b q r Hr Hn), <- (Nat.mod_unique _ b q r Hr Hn).
  done.
Qed.

Lemma batches_are_full_but_the_last_witness :
  exists st,
    run (const_engine f0812) (Z.of_nat 2) 0
      [chess; nameless; go; hex; nameless; chess; go] = Some st
    /\ List.map (fun c : call => length (fst c)) (calls st) = [2; 2; 1].
Proof.
  eexists. split; [vm_compute; reflexivity|].
  apply (batches_are_full_but_the_last (const_engine f0812) 2
           [chess; nameless; go; hex; nameless; chess; go]); [lia|].
  vm_compute. reflexivity.
Defined.

Section Fit.
Variable engine : list string -> list string -> option (list pyfloat).
Variable batch_size : Z.
Variable max_rows : Z.

#[local] Abbreviation well_batched := (well_batched batch_size).
#[local] Abbreviation fit := (fit batch_size).

Lemma flush_well_batched st st' :
  well_batched st -> flush engine st = Some st' -> well_batched st'.
Proof.
  intros (Hq & Ht & Hlen & Htight & Hcalls) Hf.
  apply flush_cases in Hf as [[_ ->]|(scores & Hne & _ & ->)]; [done|].
  unfold Enrich.well_batched. cbn [buf_rows buf_q buf_t calls length app].
  repeat (split; [done || lia|]). apply Forall_app. split; [done|].
  constructor; [|done]. unfold Enrich.fit. cbn [fst snd].
  split; [lia|]. split; [|split; [lia|done]].
  intros Hnil. rewrite Hnil in Hq. by destruct (buf_rows st).
Qed.

Lemma body_well_batched st row st' :
  well_batched st -> body engine batch_size st row = Some st' ->
  well_batched st'.
Proof.
  intros Hwb Hb. destruct (blank row) eqn:Hbl.
  - rewrite body_blank in Hb by done. by injection Hb as <-.
  - rewrite body_scorable in Hb by done. cbv zeta in Hb.
    destruct Hwb as (Hq & Ht & Hlen & Htight & Hcalls).
    apply orb_false_iff in Hbl as [Hqe Hte].
    apply PyStrFacts.is_empty_false in Hqe, Hte.
    assert (Forall tight ((buf_q st ++ [query_of row])
                          ++ buf_t st ++ [text_of row])) as Htight1.
    { apply Forall_app in Htight as [Hq' Ht'].
      repeat (apply Forall_app; split); try done;
        (constructor; [by apply PyStrFacts.tight_strip|done]). }
    cbn [buf_rows] in Hb. rewrite length_app in Hb. cbn [length] in Hb.
    destruct (Z.leb_spec batch_size (Z.of_nat (length (buf_rows st) + 1))).
    + apply flush_cases in Hb as [[Hnil _]|(scores & _ & _ & ->)].
      { cbn [buf_rows] in Hnil. by destruct (buf_rows st). }
      unfold Enrich.well_batched. cbn [buf_rows buf_q buf_t calls length app].
      repeat (split; [done || lia|]). apply Forall_app. split; [done|].
      constructor; [|done]. unfold Enrich.fit. cbn [fst snd].
      rewrite !length_app. cbn [length].
      split; [lia|]. split; [by destruct (buf_q st)|]. split; [lia|done].
    + injection Hb as <-. unfold Enrich.well_batched.
      cbn [buf_rows buf_q buf_t calls]. rewrite !length_app. cbn [length].
      repeat (split; [done || lia|]). done.
Qed.

Lemma loop_well_batched rows st st' :
  well_batched st -> loop engine batch_size max_rows st rows = Some st' ->
  well_batched st'.
Proof.
  revert st. induction rows as [|row rest IH]; intros st Hwb Hl; simpl in Hl.
  - by injection Hl as <-.
  - destruct (cap_reached max_rows st); [by injection Hl as <-|].
    destruct (body engine batch_size st row) as [st1|] eqn:Hb; [|done].
    cbn [mbind option_bind] in Hl. apply (IH st1); [|exact Hl].
    by eapply body_well_batched.
Qed.

Lemma run_fit rows st c :
  run engine batch_size max_rows rows = Some st -> In c (calls st) -> fit c.
Proof.
  unfold run. intros H Hin.
  destruct (loop engine batch_size max_rows init rows) as [st1|] eqn:Hl; [|done].
  cbn [mbind option_bind] in H.
  assert (well_batched st) as (_ & _ & _ & _ & Hcalls).
  { eapply flush_well_batched; [|exact H]. eapply loop_well_batched; [|exact Hl].
    unfold Enrich.well_batched. simpl. repeat (split; [done || lia|]). done. }
  rewrite List.Forall_forall in Hcalls. by apply Hcalls.
Qed.

End Fit.

(** X15. Whatever the input, the batch size and the cap, every engine
    invocation of a run gets as many texts as queries (what the scoring
    function requires), at least one pair and at most
    [max(batch_size, 1)] pairs, and only strings that are trimmed and
    not empty. *)
Theorem engine_gets_well_formed_batches engine batch_size max_rows rows st qs ts :
  run engine batch_size max_rows rows = Some st ->
  In (qs, ts) (calls st) ->
  length qs = length ts /\ qs <> []
  /\ (Z.of_nat (length qs) <= Z.max batch_size 1)%Z
  /\ Forall tight qs /\ Forall tight ts.
Proof.
  intros Hrun Hin.
  destruct (run_fit engine batch_size max_rows rows st _ Hrun Hin)
    as (Hlen & Hne & Hsize & Htight).
  cbn [fst snd] in *. apply Forall_app in Htight as [Hq Ht]. done.
Qed.

Lemma engine_gets_well_formed_batches_witness :
  length ["Chess"; "Go"] = length ["Chess Online"; "Go Online"]
  /\ ["Chess"; "Go"] <> []
  /\ (Z.of_nat (length ["Chess"; "Go"]) <= Z.max 2 1)%Z
  /\ Forall tight ["Chess"; "Go"] /\ Forall tight ["Chess Online"; "Go Online"].
Proof.
  apply (engine_gets_well_formed_batches (const_engine f0812) 2 0
           [chess; nameless; go]
           (State [] [] [] 3 [nameless; chess_0812; annotate go f0812]
                  [(["Chess"; "Go"], ["Chess Online"; "Go Online"])])).
  - vm_compute. reflexivity.
  - left. reflexivity.
Defined.

End JobProps.

(* ================================================================== *)
(** ** The service: handlers and heads *)
(* ================================================================== *)

Module ServiceProps.
Import Torch ListFacts TorchFacts EngineFacts Sample.

Section Handlers.
Context {F Enc : Type}.
Variable sigmoid1 : F -> F.
Variable softmax1 : list F -> list F.
Variable to_device : string -> Enc -> option Enc.

#[local] Abbreviation score := (App.score sigmoid1 softmax1 to_device).
#[local] Abbreviation batch_score := (App.batch_score sigmoid1 softmax1 to_device).
#[local] Abbreviation _score_pairs := (App._score_pairs sigmoid1 softmax1 to_device).

(** X17. [/score] on a pair answers with a score [s] exactly when
    [/batch_score] on that one pair answers with the single entry of
    its id and [s]; both invoke the engine on the same two one-element
    lists. When the engine returns no score at all, [/score] fails on
    its index and [/batch_score] answers with no entry. *)
Theorem score_is_batch_score_of_one_pair (g : App.globals) query text id s :
  (score g query text = Some s
   <-> snd (batch_score g [App.Pair query text id]) = Some [App.Entry id s])
  /\ fst (batch_score g [App.Pair query text id]) = [([query], [text])]
  /\ (_score_pairs g [query] [text] = Some [] ->
      score g query text = None
      /\ snd (batch_score g [App.Pair query text id]) = Some []).
Proof.
  unfold App.score, App.batch_score. cbn [List.map App.query App.text fst snd].
  destruct (_score_pairs g [query] [text]) as [[|s0 l]|];
    cbn [mbind option_bind]; (split; [|split; [done|]]).
  - split; [done|]. by intros [=].
  - done.
  - cbn. split; [by intros [= ->]|]. by intros [= ->].
  - done.
  - split; [done|]. by intros [=].
  - done.
Qed.

(** X18. Before [_load] has set both the tokenizer and the model,
    [/score] fails, and [/batch_score] fails on every list of pairs
    that is not empty, on the assertion of [_score_pairs]; on the empty
    list [/batch_score] answers all the same. *)
Theorem handlers_before_load (g : App.globals) :
  App.tokenizer g = None \/ App.model g = None ->
  (forall query text, score g query text = None)
  /\ (forall pairs, pairs <> [] -> snd (batch_score g pairs) = None)
  /\ batch_score g [] = ([], Some []).
Proof.
  intros Hnone.
  assert (forall qs ts, _score_pairs g qs ts = None) as Hfail.
  { intros qs ts. unfold App._score_pairs.
    destruct Hnone as [-> | ->]; [done|]. by destruct (App.tokenizer g). }
  split; [|split; [|done]].
  - intros query text. unfold App.score. by rewrite Hfail.
  - intros [|p pairs] Hne; [done|]. unfold App.batch_score. cbn [snd].
    by rewrite Hfail.
Qed.

End Handlers.

Lemma handlers_before_load_witness :
  (forall query text,
     App.score RealOps.sigmoid1 RealOps.softmax1 same_device
       (App.imported true false (Some "cuda"%string) 256) query text = None)
  /\ (forall pairs, pairs <> [] ->
        snd (App.batch_score RealOps.sigmoid1 RealOps.softmax1 same_device
               (App.imported true false (Some "cuda"%string) 256) pairs) = None)
  /\ App.batch_score RealOps.sigmoid1 RealOps.softmax1 same_device
       (App.imported true false (Some "cuda"%string) 256) [] = ([], Some []).
Proof.
  apply (handlers_before_load RealOps.sigmoid1 RealOps.softmax1 same_device
           (App.imported true false (Some "cuda"%string) 256)).
  left. reflexivity.
Defined.

Lemma take_two_drop {A} (l : list A) k a b :
  l !! k = Some a -> l !! (k + 1) = Some b -> take 2 (drop k l) = [a; b].
Proof.
  intros Ha Hb. rewrite (drop_S l a k Ha).
  replace (k + 1) with (S k) in Hb by lia.
  by rewrite (drop_S l b (S k) Hb).
Qed.

(** X19. Logits without a label dimension, of shape [(b)] with [b > 0],
    take the fallback branch, and the scores are the sigmoid of every
    value, as for the shape [(b, 1)]. *)
Theorem vector_logits_get_the_sigmoid {F Enc : Type}
    (sigmoid1 : F -> F) (softmax1 : list F -> list F)
    (to_device : string -> Enc -> option Enc)
    tok mdl dev ml (queries texts : list string) enc enc' logits b :
  tok queries texts ml = Some enc ->
  to_device dev enc = Some enc' ->
  mdl enc' = Some logits ->
  wf logits -> shape logits = [b] -> 0 < b ->
  App._score_pairs sigmoid1 softmax1 to_device
    (App.Globals (Some tok) (Some mdl) dev ml) queries texts
  = Some (List.map sigmoid1 (data logits)).
Proof.
  intros Ht Hd Hm Hwf Hs Hb.
  rewrite (_score_pairs_forward _ _ _ _ _ _ _ _ _ _ _ _ Ht Hd Hm).
  destruct (normalize_fallback sigmoid1 softmax1 b [] logits)
    as (d & -> & Hlen & Hrow); [done|done|done|done|done|cbn; lia|].
  cbn [fmap option_fmap option_map tolist data]. do 2 f_equal.
  unfold wf in Hwf. rewrite Hs in Hwf. cbn in Hwf.
  apply list_eq. intros i. destruct (decide (i < b)) as [Hi|Hi].
  - rewrite Hrow by done. apply EngineProps.lookup_flat_row_single.
  - rewrite !lookup_ge_None_2; [done|lia..].
Qed.

Lemma vector_logits_get_the_sigmoid_witness :
  App._score_pairs RealOps.sigmoid1 RealOps.softmax1 same_device
    (App.Globals (Some pair_tokenizer) (Some vector_model) "cpu" 256)
    ["Chess"; "Go"] ["Chess Online"; "Go Online"]
  = Some (List.map RealOps.sigmoid1 [0%R; 0%R]).
Proof.
  apply (vector_logits_get_the_sigmoid RealOps.sigmoid1 RealOps.softmax1
           same_device pair_tokenizer vector_model "cpu" 256%Z
           ["Chess"; "Go"] ["Chess Online"; "Go Online"]
           [("Chess", "Chess Online"); ("Go", "Go Online")]
           [("Chess", "Chess Online"); ("Go", "Go Online")]
           (Tensor [2] [0%R; 0%R]) 2).
  - reflexivity.
  - reflexivity.
  - reflexivity.
  - reflexivity.
  - reflexivity.
  - lia.
Defined.

Lemma softmax_second_of_two (l0 l1 : R) :
  RealOps.softmax1 [l0; l1] !! 1 = Some (RealOps.sigmoid1 (l1 - l0)).
Proof.
  unfold RealOps.softmax1, RealOps.sigmoid1, RealOps.sum_exp. cbn. f_equal.
  replace (- (l1 - l0))%R with (l0 + - l1)%R by lra.
  rewrite exp_plus, exp_Ropp.
  pose proof (exp_pos l0). pose proof (exp_pos l1).
  field. lra.
Qed.

(** X20. With sigmoid and softmax on the reals, a head with two logits
    per pair gives pair [i] the sigmoid of the difference between its
    second and its first logit: the score a single-logit head would
    give for that difference. *)
Theorem binary_head_scores_the_logit_difference {Enc : Type}
    (to_device : string -> Enc -> option Enc)
    tok mdl dev ml (queries texts : list string) enc enc' logits b :
  tok queries texts ml = Some enc ->
  to_device dev enc = Some enc' ->
  mdl enc' = Some logits ->
  wf logits -> shape logits = [b; 2] ->
  exists scores,
    App._score_pairs RealOps.sigmoid1 RealOps.softmax1 to_device
      (App.Globals (Some tok) (Some mdl) dev ml) queries texts = Some scores
    /\ length scores = b
    /\ forall i l0 l1,
         data logits !! (i * 2) = Some l0 ->
         data logits !! (i * 2 + 1) = Some l1 ->
         scores !! i = Some (RealOps.sigmoid1 (l1 - l0)).
Proof.
  intros Ht Hd Hm Hwf Hs.
  rewrite (_score_pairs_forward _ _ _ _ _ _ _ _ _ _ _ _ Ht Hd Hm).
  destruct (normalize_binary RealOps.sigmoid1 RealOps.softmax1
              RealFacts.softmax1_length b logits Hwf Hs)
    as (d & -> & Hlen & Hrow).
  exists d. split; [done|]. split; [done|]. intros i l0 l1 H0 H1.
  assert (i < b) as Hi.
  { apply lookup_lt_Some in H1. unfold wf in Hwf. rewrite Hs in Hwf.
    cbn in Hwf. lia. }
  rewrite Hrow by done. unfold flat_row.
  rewrite (take_two_drop _ _ l0 l1 H0 H1). apply softmax_second_of_two.
Qed.

Lemma binary_head_scores_the_logit_difference_witness :
  exists scores,
    App._score_pairs RealOps.sigmoid1 RealOps.softmax1 same_device
      (App.Globals (Some pair_tokenizer) (Some binary_model) "cpu" 256)
      ["Chess"] ["Chess Online"] = Some scores
    /\ length scores = 1
    /\ forall i l0 l1,
         [0%R; 1%R] !! (i * 2) = Some l0 ->
         [0%R; 1%R] !! (i * 2 + 1) = Some l1 ->
         scores !! i = Some (RealOps.sigmoid1 (l1 - l0)).
Proof.
  apply (binary_head_scores_the_logit_difference
           same_device pair_tokenizer binary_model "cpu" 256%Z
           ["Chess"] ["Chess Online"]
           [("Chess", "Chess Online")] [("Chess", "Chess Online")]
           (Tensor [1; 2] [0%R; 1%R]) 1).
  - reflexivity.
  - reflexivity.
  - reflexivity.
  - reflexivity.
  - reflexivity.
Defined.

End ServiceProps.
